(** * Gravity Index analyzer: a shallow embedding of [gravity_index.py]

    The development follows the analyzer class of the script:
    - [scan_vault] builds the forward / backward link sets and the set of
      all note names;
    - [calculate_pagerank] runs a fixed number of synchronous rounds;
    - [get_95th_percentile] anchors each metric;
    - [calculate_gravity_index] scores every connected note and sorts the
      records by their total.

    Conventions of the embedding.
    - Python floats are idealised as real numbers ([R]): sums and products
      are exact.  Integer counts are [nat] and enter the reals through [INR].
    - Operations that raise in Python return [None] here: a division by
      zero, [math.log] and [math.sqrt] outside their domain, a list index
      out of range.  A function that returns [Some v] did not raise.
    - A Python [set] is a [gset string]; a [defaultdict(set)] is a
      [gmap string (gset string)] read through [dd_get].  A [dict] whose
      iteration order is used is an association list in insertion order.
    - The order in which Python iterates a set is not fixed by the
      language; it is a parameter [set_order] of the functions that
      iterate one. *)

From Stdlib Require Import Reals Lra Lia.
From stdpp Require Import gmap strings list fin_maps fin_sets sorting.

Local Open Scope R_scope.

(** ** Decidable comparisons on the reals *)

#[global] Instance R_eq_dec : EqDecision R := Req_dec_T.
#[global] Instance Rlt_decision (x y : R) : Decision (x < y) := Rlt_dec x y.
#[global] Instance Rle_decision (x y : R) : Decision (x <= y) := Rle_dec x y.

(** ** Python primitives *)

(** [a / b]: raises [ZeroDivisionError] when [b] is zero. *)
Definition py_div (a b : R) : option R :=
  if decide (b = 0) then None else Some (a / b).

(** [math.log(x)]: raises [ValueError] unless [x > 0]. *)
Definition py_log (x : R) : option R :=
  if decide (0 < x) then Some (ln x) else None.

(** [math.sqrt(x)]: raises [ValueError] when [x < 0]. *)
Definition py_sqrt (x : R) : option R :=
  if decide (0 <= x) then Some (sqrt x) else None.

(** A loop [for a in l: b = f(b, a)] whose body may raise. *)
Fixpoint foldlM {A B : Type} (f : B → A → option B) (b : B) (l : list A)
  : option B :=
  match l with
  | [] => Some b
  | a :: l' => b' ← f b a; foldlM f b' l'
  end.

(** [for _ in range(n): x = f(x)] whose body may raise. *)
Fixpoint repeatM {A : Type} (n : nat) (f : A → option A) (x : A) : option A :=
  match n with
  | O => Some x
  | S n' => y ← f x; repeatM n' f y
  end.

(** [d[k] = v] on a [dict]: a present key keeps its position. *)
Fixpoint dict_set {V : Type} (k : string) (v : V) (d : list (string * V))
  : list (string * V) :=
  match d with
  | [] => [(k, v)]
  | (k', v') :: d' =>
      if decide (k = k') then (k, v) :: d' else (k', v') :: dict_set k v d'
  end.

(** [d.get(k, set())] on a [defaultdict(set)]. *)
Definition dd_get (d : gmap string (gset string)) (k : string) : gset string :=
  default ∅ (d !! k).

(** [d[k].add(x)] on a [defaultdict(set)]: a missing key is created. *)
Definition dd_add (d : gmap string (gset string)) (k x : string)
  : gmap string (gset string) :=
  <[k := {[x]} ∪ dd_get d k]> d.

(** The order in which a set is iterated: some enumeration of its
    elements, each exactly once. *)
Record set_order := SetOrder {
  set_iter :> gset string → list string;
  set_iter_perm : ∀ X, set_iter X ≡ₚ elements X
}.

Definition elements_order : set_order :=
  SetOrder elements (λ X, reflexivity (elements X)).

Definition reverse_order : set_order :=
  SetOrder (λ X, reverse (elements X)) (λ X, reverse_Permutation (elements X)).

(** [sorted(l)] with the comparison [lt]: Python's sort is stable and only
    asks whether one element is less than another.  Elements are inserted
    from the right, each before the first element that is not less. *)
Fixpoint insert_sorted {A : Type} (lt : A → A → bool) (x : A) (l : list A)
  : list A :=
  match l with
  | [] => [x]
  | y :: l' => if lt y x then y :: insert_sorted lt x l' else x :: y :: l'
  end.

Definition py_sorted {A : Type} (lt : A → A → bool) (l : list A) : list A :=
  foldr (insert_sorted lt) [] l.

(** ** The analyzer state *)

(** A markdown file of the vault as [scan_vault] sees it: the parts of its
    path, its stem, and the targets [link.split('|')[0].strip()] of the
    wiki links found in its content, in order (none when the file cannot
    be read: the [except] branch only prints). *)
Record md_file := MdFile {
  parts : list string;
  stem : string;
  wiki_links : list string
}.

Record GravityIndexAnalyzer := Analyzer {
  notes : list (string * md_file);
  links : gmap string (gset string);
  backlinks : gmap string (gset string);
  all_notes : gset string
}.

(** [__init__] *)
Definition init : GravityIndexAnalyzer := Analyzer [] ∅ ∅ ∅.

Definition skip_folders : list string :=
  [".obsidian"; ".git"; "node_modules"; "__pycache__"; ".DS_Store"]%string.

Definition skipped (f : md_file) : bool :=
  existsb (λ skip_folder, bool_decide (skip_folder ∈ parts f)) skip_folders.

(** First loop of [scan_vault]: one file that is not skipped. *)
Definition register_file (self : GravityIndexAnalyzer) (f : md_file)
  : GravityIndexAnalyzer :=
  if skipped f then self
  else Analyzer (dict_set (stem f) f (notes self))
                (links self) (backlinks self)
                ({[stem f]} ∪ all_notes self).

(** Body of the inner loop of [scan_vault]: one link of note [note_name]. *)
Definition add_link (note_name link_target : string)
    (self : GravityIndexAnalyzer) : GravityIndexAnalyzer :=
  Analyzer (notes self)
           (dd_add (links self) note_name link_target)
           (dd_add (backlinks self) link_target note_name)
           ({[link_target]} ∪ all_notes self).

(** Second loop of [scan_vault]: the links of one note. *)
Definition add_links (self : GravityIndexAnalyzer) (item : string * md_file)
  : GravityIndexAnalyzer :=
  foldl (λ s link_target, add_link item.1 link_target s) self
        (wiki_links item.2).

Definition scan_vault (vault : list md_file) : GravityIndexAnalyzer :=
  let self := foldl register_file init vault in
  foldl add_links self (notes self).


(** The states the scan goes through: files are registered, and links are
    added only for notes that are keys of [notes]. *)
Inductive scan_state : GravityIndexAnalyzer → Prop :=
| scan_init : scan_state init
| scan_register self f :
    scan_state self → scan_state (register_file self f)
| scan_link self note_name link_target :
    scan_state self → note_name ∈ (notes self).*1 →
    scan_state (add_link note_name link_target self).

(** The invariant of the scan. *)
Record graph_wf (self : GravityIndexAnalyzer) : Prop := GraphWf {
  wf_symmetric a b :
    b ∈ dd_get (links self) a ↔ a ∈ dd_get (backlinks self) b;
  wf_source a b : b ∈ dd_get (links self) a → a ∈ (notes self).*1;
  wf_target a b : b ∈ dd_get (links self) a → b ∈ all_notes self;
  wf_notes a : a ∈ (notes self).*1 → a ∈ all_notes self
}.

(** ** PageRank *)

(** Body of the innermost loop of [calculate_pagerank]: the share that
    [linking_note] adds to [new_pr]. *)
Definition pagerank_contrib (self : GravityIndexAnalyzer)
    (pagerank : gmap string R) (damping : R)
    (new_pr : R) (linking_note : string) : option R :=
  match pagerank !! linking_note with
  | Some pr =>
      let outgoing_count := size (dd_get (links self) linking_note) in
      if decide (0 < outgoing_count)%nat
      then q ← py_div (damping * pr) (INR outgoing_count); Some (new_pr + q)
      else Some new_pr
  | None => Some new_pr
  end.

(** The new rank of [note], from the ranks of the previous round. *)
Definition pagerank_note (iter : set_order) (self : GravityIndexAnalyzer)
    (notes : list string) (damping : R) (pagerank : gmap string R)
    (note : string) : option R :=
  base ← py_div (1 - damping) (INR (length notes));
  foldlM (pagerank_contrib self pagerank damping) base
         (iter (dd_get (backlinks self) note)).

(** One round: [new_pagerank] is filled from [pagerank] and replaces it. *)
Definition pagerank_round (iter : set_order) (self : GravityIndexAnalyzer)
    (notes : list string) (damping : R) (pagerank : gmap string R)
  : option (gmap string R) :=
  foldlM (λ new_pagerank note,
            new_pr ← pagerank_note iter self notes damping pagerank note;
            Some (<[note := new_pr]> new_pagerank))
         ∅ notes.

(** [{note: 1.0 / len(notes) for note in notes}] *)
Definition pagerank_init (notes : list string) : option (gmap string R) :=
  foldlM (λ pagerank note,
            v ← py_div 1 (INR (length notes));
            Some (<[note := v]> pagerank))
         ∅ notes.

Definition calculate_pagerank (iter : set_order) (self : GravityIndexAnalyzer)
    (iterations : nat) (damping : R) : option (gmap string R) :=
  let notes := iter (all_notes self) in
  if decide (notes = []) then Some ∅
  else
    pagerank ← pagerank_init notes;
    repeatM iterations (pagerank_round iter self notes damping) pagerank.

(** The default arguments [iterations=50, damping=0.85]. *)
Definition default_iterations : nat := 50.
Definition default_damping : R := 0.85.

(** The update rule as the specification writes it:
    [rank'(n) = (1 - damping) / |allNotes|
              + damping * Σ over m ∈ backward[n] of rank(m) / outdegree(m)],
    a predecessor of outdegree 0 adding nothing. *)
Fixpoint sumR (l : list R) : R :=
  match l with
  | [] => 0
  | x :: l' => x + sumR l'
  end.

Definition outdegree (self : GravityIndexAnalyzer) (m : string) : nat :=
  size (dd_get (links self) m).

Definition spec_share (self : GravityIndexAnalyzer) (rank : gmap string R)
    (m : string) : R :=
  if decide (outdegree self m = 0%nat) then 0
  else default 0 (rank !! m) / INR (outdegree self m).

Definition spec_rank (self : GravityIndexAnalyzer) (damping : R)
    (rank : gmap string R) (n : string) : R :=
  (1 - damping) / INR (size (all_notes self))
  + damping * sumR (spec_share self rank <$>
                      elements (dd_get (backlinks self) n)).

Definition map_of_fun (f : string → R) (X : gset string) : gmap string R :=
  set_to_map (λ n, (n, f n)) X.

Definition spec_round (self : GravityIndexAnalyzer) (damping : R)
    (rank : gmap string R) : gmap string R :=
  map_of_fun (spec_rank self damping rank) (all_notes self).

Definition spec_init (self : GravityIndexAnalyzer) : gmap string R :=
  map_of_fun (λ _, 1 / INR (size (all_notes self))) (all_notes self).

Definition spec_pagerank (self : GravityIndexAnalyzer) (iterations : nat)
    (damping : R) : gmap string R :=
  Nat.iter iterations (spec_round self damping) (spec_init self).

Arguments spec_pagerank : simpl never.

(** The total mass of a rank distribution. *)
Definition mass (rank : gmap string R) : R := sumR (map_to_list rank).*2.

(** ** The 95th percentile *)

(** [int(0.95 * n)] for a length [n]: the product is not negative, so
    [int] is its floor, and the floor of [0.95 * n] is [95 * n / 100] in
    integer arithmetic (lemma [int_095_floor]).  The double nearest to 0.95
    lies below it by less than half a unit in the last place, so the
    rounded product is the integer [19 * n / 20] when [n] is a multiple of
    20 and keeps its integer part otherwise: the float computation gives
    the same index. *)
Definition int_095 (n : nat) : nat := (95 * n / 100)%nat.

Definition get_95th_percentile (values : list R) : option R :=
  let sorted_vals :=
    py_sorted (λ a b, bool_decide (a < b)) (filter (λ v, 0 < v) values) in
  if decide (sorted_vals = []) then Some 1
  else
    let idx := int_095 (length sorted_vals) in
    sorted_vals !! (idx `min` (length sorted_vals - 1))%nat.

(** The value the specification describes: the element of the ascending
    positive values at index [floor(0.95 * n)] clamped to [n - 1], and 1
    when there is none. *)
Definition spec_p95 (sorted_positive : list R) : R :=
  match sorted_positive with
  | [] => 1
  | _ => nth (int_095 (length sorted_positive)
                `min` (length sorted_positive - 1))%nat sorted_positive 0
  end.

(** ** Categories *)

(** [sub in s] on strings. *)
Fixpoint contains (sub s : string) : bool :=
  String.prefix sub s
  || match s with
     | EmptyString => false
     | String _ s' => contains sub s'
     end.

Definition any_in (words : list string) (s : string) : bool :=
  existsb (λ word, contains word s) words.

Definition categorize_note (note : string) : string :=
  if contains "⚗️" note || contains "LYT" note then "LYT/Courses"
  else if contains "MOC" note then "MOCs"
  else if contains "Map" note then "Maps"
  else if contains "Obsidian" note then "Tools"
  else if any_in ["Movie"; "Book"; "Series"; "Drama"; "Action"; "Comedy"] note
       then "Media"
  else if any_in ["Workshop"; "Home"; "Pro"; "Hub"] note then "Workspaces"
  else if any_in ["Project"; "Template"; "Record"] note then "Productivity"
  else "Other".

(** ** The gravity index *)

(** An entry of [all_data]. *)
Record note_data := NoteData {
  d_note : string;
  d_incoming : nat;
  d_outgoing : nat;
  d_bidirectional : nat;
  d_incoming_log : R;
  d_outgoing_log : R;
  d_bidirectional_efficiency : R;
  d_scale_bonus : R;
  d_curation_bonus : R;
  d_conversation_bonus : R;
  d_quality_bonus : R;
  d_integration_index : R;
  d_pagerank_log : R;
  d_category : string;
  d_exists : bool
}.

(** A value of [gravity_scores]. *)
Record gravity_score := GravityScore {
  total : R;
  incoming : nat;
  outgoing : nat;
  bidirectional : nat;
  bidirectional_efficiency : R;
  integration_index : R;
  category : string;
  scale_bonus : R;
  curation_bonus : R;
  conversation_bonus : R;
  quality_bonus : R;
  authority_component : R;
  curation_component : R;
  conversation_component : R;
  quality_component : R;
  network_component : R;
  integration_component : R;
  exists_ : bool
}.

(** The six multipliers of the target weights. *)
Record multipliers := Multipliers {
  authority_multiplier : R;
  curation_multiplier : R;
  conversation_multiplier : R;
  quality_multiplier : R;
  network_multiplier : R;
  integration_multiplier : R
}.

(** Body of the first loop of [calculate_gravity_index]: [None] in the
    result stands for [continue]. *)
Definition note_metrics (self : GravityIndexAnalyzer)
    (pagerank_scores : gmap string R) (note : string)
  : option (option note_data) :=
  let incoming := size (dd_get (backlinks self) note) in
  let outgoing := size (dd_get (links self) note) in
  let bidirectional :=
    size (dd_get (links self) note ∩ dd_get (backlinks self) note) in
  if decide (incoming = 0%nat ∧ outgoing = 0%nat) then Some None
  else
    incoming_log ← py_log (INR (incoming + 1));
    outgoing_log ← py_log (INR (outgoing + 1));
    bidirectional_efficiency ←
      (if decide (0 < incoming)%nat
       then py_div (INR bidirectional) (INR (incoming `max` 1))
       else Some 0);
    let scale_bonus :=
      if decide (20 ≤ incoming ∧ incoming ≤ 100)%nat then 1.5 else 1.0 in
    let curation_bonus := if decide (15 ≤ outgoing)%nat then 1.3 else 1.0 in
    let conversation_bonus :=
      if decide (10 ≤ bidirectional)%nat then 1.2 else 1.0 in
    let quality_bonus :=
      if decide (0.25 < bidirectional_efficiency) then 2.0 else 0.5 in
    integration_index ←
      py_sqrt (INR ((bidirectional `max` 1) * (outgoing `max` 1))
               * Rmax bidirectional_efficiency 0.01);
    pagerank_log ←
      py_log (default 0 (pagerank_scores !! note) * 10000 + 1);
    let category := categorize_note note in
    Some (Some (NoteData note incoming outgoing bidirectional
                  incoming_log outgoing_log bidirectional_efficiency
                  scale_bonus curation_bonus conversation_bonus quality_bonus
                  integration_index pagerank_log category
                  (bool_decide (note ∈ (notes self).*1)))).

(** The first loop: [all_data] in the order the notes are iterated. *)
Fixpoint collect_data (self : GravityIndexAnalyzer)
    (pagerank_scores : gmap string R) (notes : list string)
  : option (list note_data) :=
  match notes with
  | [] => Some []
  | note :: notes' =>
      entry ← note_metrics self pagerank_scores note;
      all_data ← collect_data self pagerank_scores notes';
      Some (match entry with
            | Some data => data :: all_data
            | None => all_data
            end)
  end.

(** [w / p95 if p95 > 0 else 0] *)
Definition multiplier (weight p95 : R) : option R :=
  if decide (0 < p95) then py_div weight p95 else Some 0.

Definition calculate_multipliers (all_data : list note_data)
  : option multipliers :=
  p95_incoming_log ← get_95th_percentile (d_incoming_log <$> all_data);
  p95_outgoing_log ← get_95th_percentile (d_outgoing_log <$> all_data);
  p95_bidirectional ←
    get_95th_percentile ((λ d, INR (d_bidirectional d)) <$> all_data);
  p95_efficiency ←
    get_95th_percentile (d_bidirectional_efficiency <$> all_data);
  p95_pagerank_log ← get_95th_percentile (d_pagerank_log <$> all_data);
  p95_integration ← get_95th_percentile (d_integration_index <$> all_data);
  authority_multiplier ← multiplier 25 p95_incoming_log;
  curation_multiplier ← multiplier 20 p95_outgoing_log;
  conversation_multiplier ← multiplier 20 p95_bidirectional;
  quality_multiplier ← multiplier 15 p95_efficiency;
  network_multiplier ← multiplier 10 p95_pagerank_log;
  integration_multiplier ← multiplier 10 p95_integration;
  Some (Multipliers authority_multiplier curation_multiplier
          conversation_multiplier quality_multiplier network_multiplier
          integration_multiplier).

(** Body of the second loop: the record of one entry of [all_data]. *)
Definition score (m : multipliers) (data : note_data) : gravity_score :=
  let authority_component :=
    (d_incoming_log data * d_scale_bonus data) * authority_multiplier m in
  let curation_component :=
    (d_outgoing_log data * d_curation_bonus data) * curation_multiplier m in
  let conversation_component :=
    (INR (d_bidirectional data) * d_conversation_bonus data)
    * conversation_multiplier m in
  let quality_component :=
    (d_bidirectional_efficiency data * d_quality_bonus data)
    * quality_multiplier m in
  let network_component := d_pagerank_log data * network_multiplier m in
  let integration_component :=
    d_integration_index data * integration_multiplier m in
  let gravity :=
    authority_component + curation_component + conversation_component
    + quality_component + network_component + integration_component in
  GravityScore gravity (d_incoming data) (d_outgoing data)
    (d_bidirectional data) (d_bidirectional_efficiency data)
    (d_integration_index data) (d_category data)
    (d_scale_bonus data) (d_curation_bonus data)
    (d_conversation_bonus data) (d_quality_bonus data)
    authority_component curation_component conversation_component
    quality_component network_component integration_component
    (d_exists data).

(** The second loop: [gravity_scores[note] = {...}] for each entry. *)
Definition fill_scores (m : multipliers) (all_data : list note_data)
  : list (string * gravity_score) :=
  foldl (λ gravity_scores data,
           dict_set (d_note data) (score m data) gravity_scores)
        [] all_data.

(** [sorted(items, key=lambda x: x[1]['total'], reverse=True)]: a stable
    sort on the total alone, larger totals first; items of equal total
    keep their order. *)
Definition sort_by_total (items : list (string * gravity_score))
  : list (string * gravity_score) :=
  py_sorted (λ x y, bool_decide (total y.2 < total x.2)) items.

Definition calculate_gravity_index (iter : set_order)
    (self : GravityIndexAnalyzer) : option (list (string * gravity_score)) :=
  pagerank_scores ←
    calculate_pagerank iter self default_iterations default_damping;
  all_data ← collect_data self pagerank_scores (iter (all_notes self));
  if decide (all_data = []) then Some []
  else
    m ← calculate_multipliers all_data;
    Some (sort_by_total (fill_scores m all_data)).

(** [d.get(k)] on a [dict] kept as an association list. *)
Fixpoint dict_get {V : Type} (k : string) (d : list (string * V)) : option V :=
  match d with
  | [] => None
  | (k', v) :: d' => if decide (k = k') then Some v else dict_get k d'
  end.

(** ** Descriptions and the report *)

(** [sep.join(l)] *)
Fixpoint py_join (sep : string) (l : list string) : string :=
  match l with
  | [] => ""
  | s :: l' =>
      match l' with
      | [] => s
      | _ => s +:+ sep +:+ py_join sep l'
      end
  end.

(** The list [strengths] that [_get_bonus_description] builds. *)
Definition strengths_of (data : gravity_score) : list string :=
  (if decide (100 ≤ incoming data)%nat then ["authoritative reference"]
   else if decide (50 ≤ incoming data)%nat then ["widely referenced"]
   else if decide (20 ≤ incoming data)%nat then ["solid authority"]
   else [])
  ++ (if decide (50 ≤ outgoing data)%nat then ["extensive curator"]
      else if decide (25 ≤ outgoing data)%nat then ["active synthesizer"]
      else if decide (15 ≤ outgoing data)%nat then ["knowledge weaver"]
      else [])
  ++ (if decide (20 ≤ bidirectional data)%nat then ["conversation hub"]
      else if decide (10 ≤ bidirectional data)%nat then ["dialogue catalyst"]
      else [])
  ++ (if decide (0.4 <= bidirectional_efficiency data)
      then ["selective depth"]
      else if decide (0.25 <= bidirectional_efficiency data)
      then ["quality focus"]
      else []).

(** The list [gaps] that [_get_bonus_description] builds. *)
Definition gaps_of (data : gravity_score) : list string :=
  if decide (incoming data < 10 ∧ 30 < outgoing data)%nat
  then ["under-recognized"]
  else if decide (outgoing data < 10 ∧ 30 < incoming data)%nat
  then ["could link more"]
  else if decide (bidirectional data < 5 ∧ 20 < incoming data)%nat
  then ["one-way traffic"]
  else [].

(** [_get_bonus_description]: indexing a list out of range raises. *)
Definition get_bonus_description (data : gravity_score) : option string :=
  let strengths := strengths_of data in
  let gaps := gaps_of data in
  if bool_decide (strengths ≠ []) && bool_decide (gaps ≠ [])
  then gap ← gaps !! 0%nat;
       Some (py_join ", " (take 2 strengths) +:+ "; " +:+ gap)
  else if decide (2 ≤ length strengths)%nat
  then s0 ← strengths !! 0%nat; s1 ← strengths !! 1%nat;
       Some (s0 +:+ " + " +:+ s1)
  else if decide (strengths ≠ []) then strengths !! 0%nat
  else if decide (10 < integration_index data)
  then Some "balanced integrator"
  else Some "emerging connector".

(** [categories[k].append(v)] on a [defaultdict(list)]. *)
Definition dd_append (d : list (string * list R)) (k : string) (v : R)
  : list (string * list R) :=
  dict_set k (default [] (dict_get k d) ++ [v]) d.

(** [l[:n]] for a Python int [n]: the first [n] items of [l], and for a
    negative [n] all but the last [-n] items. *)
Definition py_slice_to {A : Type} (n : Z) (l : list A) : list A :=
  take (Z.to_nat (if decide (n < 0)%Z then Z.of_nat (length l) + n else n)) l.

(** The values that [generate_report] computes and then lays out as
    text: the number [min(top_n, len(gravity_scores))] of the heading, one
    entry (rank, note, total, description) per note of the slice
    [[:top_n]], the three summary statistics, and one row (category,
    count, average total) per category of the notes of the slice, the
    largest category first.  The layout itself (the fixed lines, the date
    and the rounding of the numbers to text) is not part of the model. *)
Record report_values := ReportValues {
  shown_count : Z;
  ranking : list (nat * string * R * string);
  total_notes : nat;
  avg_efficiency : R;
  top_score : R;
  category_rows : list (string * nat * R)
}.

(** [categories] after the loop over the notes shown. *)
Definition categories_of (shown : list (string * gravity_score))
  : list (string * list R) :=
  foldl (λ categories item,
           dd_append categories (category item.2) (total item.2))
        [] shown.

(** The computations of [generate_report]; the inner [None] is the early
    return of the text for an empty result. *)
Definition generate_report_values
    (gravity_scores : list (string * gravity_score)) (top_n : Z)
  : option (option report_values) :=
  if decide (gravity_scores = []) then Some None
  else
    let shown := py_slice_to top_n gravity_scores in
    ranking ←
      mapM (λ entry : nat * (string * gravity_score),
              description ← get_bonus_description entry.2.2;
              Some (entry.1 + 1, entry.2.1, total entry.2.2, description)%nat)
           (imap (λ i item, (i, item)) shown);
    let total_notes :=
      length (filter (λ item, exists_ item.2 = true) gravity_scores) in
    avg ←
      py_div (sumR ((λ item, bidirectional_efficiency item.2)
                      <$> gravity_scores))
             (INR (length gravity_scores));
    let avg_efficiency := avg * 100 in
    top ← gravity_scores !! 0%nat;
    let top_score := total top.2 in
    let categories := categories_of shown in
    rows ←
      mapM (λ row : string * list R,
              avg_score ← py_div (sumR row.2) (INR (length row.2));
              Some (row.1, length row.2, avg_score))
           (py_sorted (λ x y, bool_decide (length y.2 < length x.2)%nat)
                      categories);
    Some (Some (ReportValues
                  (top_n `min` Z.of_nat (length gravity_scores))%Z ranking
                  total_notes avg_efficiency top_score rows)).

(** How a run of [main] ends.  Reading and writing files is outside the
    model: [Failed] stands for the [except] branch of [main] being reached
    by an exception of the computation. *)
Inductive main_result :=
| NoMarkdownFiles
| NoConnections
| Completed (report : option report_values) (top_note : string)
    (top_score : R) (top_five : list (string * R))
| Failed.

(** [main], on the files of the vault: scan, score, report with the
    default [top_n=50], then the top note and the first five notes. *)
Definition main (iter : set_order) (vault : list md_file) : main_result :=
  let analyzer := scan_vault vault in
  if decide (all_notes analyzer = ∅) then NoMarkdownFiles
  else
    match calculate_gravity_index iter analyzer with
    | None => Failed
    | Some gravity_scores =>
        if decide (gravity_scores = []) then NoConnections
        else
          match generate_report_values gravity_scores 50%Z,
                gravity_scores !! 0%nat with
          | Some report, Some top =>
              Completed report top.1 (total top.2)
                ((λ item, (item.1, total item.2)) <$> take 5 gravity_scores)
          | _, _ => Failed
          end
    end.

(** ** Auxiliary notions of the properties *)

Definition rank_nonneg (rank : gmap string R) : Prop :=
  ∀ m, 0 <= default 0 (rank !! m).

(** The part of a rank that a round hands on: nothing for a note of
    outdegree 0. *)
Definition kept (self : GravityIndexAnalyzer) (rank : gmap string R)
    (m : string) : R :=
  if decide (outdegree self m = 0%nat) then 0 else default 0 (rank !! m).

(** The value of [get_95th_percentile] when it returns. *)
Definition p95_value (values : list R) : R :=
  spec_p95 (py_sorted (λ a b, bool_decide (a < b))
                      (filter (λ v, 0 < v) values)).

(** The metrics of a note as the specification lists them. *)
Definition incoming_of (self : GravityIndexAnalyzer) (note : string) : nat :=
  size (dd_get (backlinks self) note).

Definition outgoing_of (self : GravityIndexAnalyzer) (note : string) : nat :=
  size (dd_get (links self) note).

Definition bidirectional_of (self : GravityIndexAnalyzer) (note : string)
  : nat :=
  size (dd_get (links self) note ∩ dd_get (backlinks self) note).

(** A note qualifies when it has an incoming or an outgoing link. *)
Definition qualifies (self : GravityIndexAnalyzer) (note : string) : Prop :=
  (0 < incoming_of self note ∨ 0 < outgoing_of self note)%nat.

#[global] Instance qualifies_dec self note : Decision (qualifies self note).
Proof. unfold qualifies. apply _. Defined.

Definition spec_efficiency (incoming bidirectional : nat) : R :=
  if decide (0 < incoming)%nat
  then INR bidirectional / INR (incoming `max` 1)
  else 0.

Definition spec_scale_bonus (incoming : nat) : R :=
  if decide (20 ≤ incoming ∧ incoming ≤ 100)%nat then 1.5 else 1.0.

Definition spec_curation_bonus (outgoing : nat) : R :=
  if decide (15 ≤ outgoing)%nat then 1.3 else 1.0.

Definition spec_conversation_bonus (bidirectional : nat) : R :=
  if decide (10 ≤ bidirectional)%nat then 1.2 else 1.0.

Definition spec_quality_bonus (efficiency : R) : R :=
  if decide (0.25 < efficiency) then 2.0 else 0.5.

Definition spec_integration_index (bidirectional outgoing : nat)
    (efficiency : R) : R :=
  sqrt (INR (bidirectional `max` 1) * INR (outgoing `max` 1)
        * Rmax efficiency 0.01).

Definition spec_data (self : GravityIndexAnalyzer)
    (pagerank_scores : gmap string R) (note : string) : note_data :=
  let incoming := incoming_of self note in
  let outgoing := outgoing_of self note in
  let bidirectional := bidirectional_of self note in
  let efficiency := spec_efficiency incoming bidirectional in
  NoteData note incoming outgoing bidirectional
    (ln (INR incoming + 1)) (ln (INR outgoing + 1)) efficiency
    (spec_scale_bonus incoming) (spec_curation_bonus outgoing)
    (spec_conversation_bonus bidirectional) (spec_quality_bonus efficiency)
    (spec_integration_index bidirectional outgoing efficiency)
    (ln (default 0 (pagerank_scores !! note) * 10000 + 1))
    (categorize_note note)
    (bool_decide (note ∈ (notes self).*1)).

(** [target_weight / p95(metric)] for the six metrics. *)
Definition spec_multipliers (all_data : list note_data) : multipliers :=
  Multipliers
    (25 / p95_value (d_incoming_log <$> all_data))
    (20 / p95_value (d_outgoing_log <$> all_data))
    (20 / p95_value ((λ d, INR (d_bidirectional d)) <$> all_data))
    (15 / p95_value (d_bidirectional_efficiency <$> all_data))
    (10 / p95_value (d_pagerank_log <$> all_data))
    (10 / p95_value (d_integration_index <$> all_data)).

(** The entries of [all_data] and the records before they are sorted, in
    the order the notes are iterated. *)
Definition spec_all_data (iter : set_order) (self : GravityIndexAnalyzer)
  : list note_data :=
  spec_data self (spec_pagerank self default_iterations default_damping)
    <$> filter (qualifies self) (iter (all_notes self)).

Definition spec_scores (iter : set_order) (self : GravityIndexAnalyzer)
  : list (string * gravity_score) :=
  let all_data := spec_all_data iter self in
  (λ data, (d_note data, score (spec_multipliers all_data) data))
    <$> all_data.

(** The number of totals held by a category table. *)
Definition rows_total (d : list (string * list R)) : nat :=
  sum_list ((λ row, length row.2) <$> d).

(** The files of a vault that [scan_vault] registers under the name [a]. *)
Definition files_named (a : string) (vault : list md_file) : list md_file :=
  filter (λ f, skipped f = false ∧ stem f = a) vault.

(** ** Example vaults *)

(** The two notes that link only to each other, and a note that links to
    a name with no file. *)
Definition mutual_vault : list md_file :=
  [MdFile ["A.md"] "A" ["B"]; MdFile ["B.md"] "B" ["A"]]%string.

Definition dangling_vault : list md_file :=
  [MdFile ["A.md"] "A" ["X"]]%string.

(** A single note with no link. *)
Definition isolated_vault : list md_file :=
  [MdFile ["A.md"] "A" []]%string.

(** ** Tactics *)

(** Decides the comparisons of real literals met while sorting a
    concrete list. *)
Ltac decide_reals :=
  repeat match goal with
    | |- context [bool_decide (?a < ?b)] =>
        first [ rewrite (bool_decide_eq_true_2 (a < b)) by lra
              | rewrite (bool_decide_eq_false_2 (a < b)) by lra ];
        cbn [insert_sorted]
    end.

(** * Properties *)

(** ** The link graph *)

Section graph.
Implicit Types (self : GravityIndexAnalyzer) (d : gmap string (gset string)).

Lemma elem_of_dd_get_dd_add d k x k' y :
  y ∈ dd_get (dd_add d k x) k' ↔ (k = k' ∧ y = x) ∨ y ∈ dd_get d k'.
Proof.
  unfold dd_add, dd_get. destruct (decide (k = k')) as [->|Hne].
  - rewrite lookup_insert_eq. simpl. set_solver.
  - rewrite lookup_insert_ne by done. naive_solver.
Qed.

Lemma dd_add_dd_add d k x : dd_add (dd_add d k x) k x = dd_add d k x.
Proof.
  unfold dd_add, dd_get. rewrite lookup_insert_eq, insert_insert_eq. simpl.
  f_equal. set_solver.
Qed.

Lemma elem_of_dict_set_keys {V} (k : string) (v : V) dict a :
  a ∈ (dict_set k v dict).*1 ↔ a = k ∨ a ∈ dict.*1.
Proof.
  induction dict as [|[k' v'] dict IH]; simpl.
  - set_solver.
  - case_decide; subst; simpl; set_solver.
Qed.

Lemma graph_wf_init : graph_wf init.
Proof. split; unfold dd_get; simpl; set_solver. Qed.

Lemma graph_wf_register self f :
  graph_wf self → graph_wf (register_file self f).
Proof.
  intros [Hs Hsrc Htgt Hn]. unfold register_file.
  destruct (skipped f); [by split|]. split; simpl.
  - done.
  - intros a b Hab. apply elem_of_dict_set_keys. eauto.
  - intros a b Hab. set_solver.
  - intros a [->|Ha]%elem_of_dict_set_keys; set_solver.
Qed.

Lemma graph_wf_add_link self note_name link_target :
  graph_wf self → note_name ∈ (notes self).*1 →
  graph_wf (add_link note_name link_target self).
Proof.
  intros [Hs Hsrc Htgt Hn] Hin. split; simpl.
  - intros a b. rewrite !elem_of_dd_get_dd_add. specialize (Hs a b).
    naive_solver.
  - intros a b [[-> ->]|Hab]%elem_of_dd_get_dd_add; eauto.
  - intros a b [[-> ->]|Hab]%elem_of_dd_get_dd_add; set_solver.
  - intros a Ha. set_solver.
Qed.

Lemma scan_state_wf self : scan_state self → graph_wf self.
Proof.
  induction 1;
    auto using graph_wf_init, graph_wf_register, graph_wf_add_link.
Qed.

Lemma notes_add_links self item : notes (add_links self item) = notes self.
Proof.
  unfold add_links. generalize (wiki_links item.2). intros targets.
  revert self. induction targets as [|t targets IH]; intros self; simpl.
  - done.
  - by rewrite IH.
Qed.

Lemma scan_state_add_links self item :
  scan_state self → item.1 ∈ (notes self).*1 →
  scan_state (add_links self item).
Proof.
  unfold add_links. generalize (wiki_links item.2). intros targets.
  revert self. induction targets as [|t targets IH]; intros self Hs Hin.
  - done.
  - simpl. apply IH; [by constructor | done].
Qed.

Lemma scan_state_registered vault self :
  scan_state self → scan_state (foldl register_file self vault).
Proof.
  revert self. induction vault as [|f vault IH]; intros self Hs; simpl.
  - done.
  - apply IH. by constructor.
Qed.

Lemma scan_state_linked items self :
  scan_state self → items.*1 ⊆ (notes self).*1 →
  scan_state (foldl add_links self items).
Proof.
  revert self. induction items as [|item items IH]; intros self Hs Hsub.
  - done.
  - simpl. apply IH.
    + apply scan_state_add_links; [done|]. apply Hsub. simpl. left.
    + rewrite notes_add_links. intros a Ha. apply Hsub. simpl. by right.
Qed.

Lemma scan_vault_state vault : scan_state (scan_vault vault).
Proof.
  unfold scan_vault. apply scan_state_linked; [|done].
  apply scan_state_registered. constructor.
Qed.

Lemma scan_vault_wf vault : graph_wf (scan_vault vault).
Proof. apply scan_state_wf, scan_vault_state. Qed.





Lemma wf_backlink_source self a b :
  graph_wf self → a ∈ dd_get (backlinks self) b → a ∈ all_notes self.
Proof.
  intros Hwf Hab. apply (wf_notes _ Hwf), (wf_source _ Hwf a b).
  by apply (wf_symmetric _ Hwf).
Qed.
End graph.




(** C7: adding the same link a second time changes nothing: the forward
    links, the backward links and [all_notes] are those after the first
    time. *)
Theorem add_link_idempotent (self : GravityIndexAnalyzer)
    (note_name link_target : string) :
  add_link note_name link_target (add_link note_name link_target self)
  = add_link note_name link_target self.
Proof.
  unfold add_link. simpl. rewrite !dd_add_dd_add. f_equal. set_solver.
Qed.

(** ** Sums of reals over lists *)

Section sums.
Context {A : Type}.
Implicit Types (f g : A → R) (l : list A).

Lemma sumR_app (l1 l2 : list R) : sumR (l1 ++ l2) = sumR l1 + sumR l2.
Proof. induction l1 as [|x l1 IH]; csimpl; [lra | rewrite IH; lra]. Qed.

Lemma sumR_perm (l1 l2 : list R) : l1 ≡ₚ l2 → sumR l1 = sumR l2.
Proof. induction 1; csimpl; lra. Qed.

Lemma sumR_fmap_perm f l1 l2 : l1 ≡ₚ l2 → sumR (f <$> l1) = sumR (f <$> l2).
Proof. intros Hp. apply sumR_perm. by rewrite Hp. Qed.

Lemma sumR_fmap_ext f g l :
  (∀ x, x ∈ l → f x = g x) → sumR (f <$> l) = sumR (g <$> l).
Proof.
  induction l as [|x l IH]; intros Hfg; csimpl; [done|].
  rewrite Hfg by left. rewrite IH; [done|]. intros y Hy. apply Hfg. by right.
Qed.

Lemma sumR_fmap_scal (c : R) f l :
  sumR ((λ x, c * f x) <$> l) = c * sumR (f <$> l).
Proof. induction l as [|x l IH]; csimpl; [lra | rewrite IH; lra]. Qed.

Lemma sumR_fmap_plus f g l :
  sumR ((λ x, f x + g x) <$> l) = sumR (f <$> l) + sumR (g <$> l).
Proof. induction l as [|x l IH]; csimpl; [lra | rewrite IH; lra]. Qed.

Lemma sumR_fmap_const (c : R) l :
  sumR ((λ _, c) <$> l) = INR (length l) * c.
Proof.
  induction l as [|x l IH]; [csimpl; lra|].
  rewrite fmap_cons, length_cons, S_INR. csimpl. rewrite IH. lra.
Qed.

Lemma sumR_fmap_zero f l : (∀ x, x ∈ l → f x = 0) → sumR (f <$> l) = 0.
Proof.
  intros Hf. rewrite (sumR_fmap_ext f (λ _, 0)) by done.
  rewrite sumR_fmap_const. lra.
Qed.

Lemma sumR_fmap_le f g l :
  (∀ x, x ∈ l → f x <= g x) → sumR (f <$> l) <= sumR (g <$> l).
Proof.
  induction l as [|x l IH]; intros Hfg; csimpl; [lra|].
  assert (f x <= g x) by (apply Hfg; left).
  assert (sumR (f <$> l) <= sumR (g <$> l)).
  { apply IH. intros y Hy. apply Hfg. by right. }
  lra.
Qed.

Lemma sumR_fmap_lt f g l x :
  x ∈ l → f x < g x → (∀ y, y ∈ l → f y <= g y) →
  sumR (f <$> l) < sumR (g <$> l).
Proof.
  intros Hx Hlt Hle. apply list_elem_of_split in Hx as (l1 & l2 & ->).
  rewrite !fmap_app, !sumR_app. csimpl.
  assert (sumR (f <$> l1) <= sumR (g <$> l1)).
  { apply sumR_fmap_le. intros y Hy. apply Hle. set_solver. }
  assert (sumR (f <$> l2) <= sumR (g <$> l2)).
  { apply sumR_fmap_le. intros y Hy. apply Hle. set_solver. }
  lra.
Qed.

Lemma sumR_fmap_nonneg f l : (∀ x, x ∈ l → 0 <= f x) → 0 <= sumR (f <$> l).
Proof.
  intros Hf. rewrite <- (sumR_fmap_zero (λ _, 0) l) by done.
  by apply sumR_fmap_le.
Qed.
End sums.

Lemma sumR_swap {A B : Type} (h : A → B → R) (l1 : list A) (l2 : list B) :
  sumR ((λ x, sumR (h x <$> l2)) <$> l1)
  = sumR ((λ y, sumR ((λ x, h x y) <$> l1)) <$> l2).
Proof.
  induction l1 as [|x l1 IH]; csimpl.
  - symmetry. by apply sumR_fmap_zero.
  - rewrite IH. by rewrite sumR_fmap_plus.
Qed.

(** A sum over a subset is the sum over the whole set of the terms that
    belong to the subset. *)
Lemma sumR_subset (h : string → R) (S V : gset string) :
  S ⊆ V →
  sumR (h <$> elements S)
  = sumR ((λ m, if decide (m ∈ S) then h m else 0) <$> elements V).
Proof.
  intros Hsub.
  assert (V = S ∪ V ∖ S) as HV by (apply union_difference_L; done).
  rewrite HV at 1.
  rewrite (sumR_fmap_perm _ _ _
             (elements_disj_union S (V ∖ S) ltac:(set_solver))).
  rewrite fmap_app, sumR_app.
  rewrite (sumR_fmap_zero _ (elements (V ∖ S))).
  - rewrite Rplus_0_r. apply sumR_fmap_ext. intros m Hm%elem_of_elements.
    by rewrite decide_True.
  - intros m Hm%elem_of_elements. rewrite decide_False; set_solver.
Qed.

(** ** Maps filled in a loop *)

Lemma lookup_map_of_fun (f : string → R) (X : gset string) (k : string) :
  map_of_fun f X !! k = if decide (k ∈ X) then Some (f k) else None.
Proof.
  unfold map_of_fun. case_decide as Hk.
  - apply lookup_set_to_map; [naive_solver|]. by exists k.
  - apply eq_None_not_Some. intros [v Hv].
    apply lookup_set_to_map in Hv as (x & Hx & Heq); [|naive_solver].
    simplify_eq. done.
Qed.

Lemma dom_map_of_fun (f : string → R) (X : gset string) :
  dom (map_of_fun f X) = X.
Proof.
  apply set_eq. intros k. rewrite elem_of_dom, lookup_map_of_fun.
  case_decide; [|split; [intros [? ?]; done | done]].
  split; [done | by eexists].
Qed.

Lemma map_of_fun_ext (f g : string → R) (X : gset string) :
  (∀ k, k ∈ X → f k = g k) → map_of_fun f X = map_of_fun g X.
Proof.
  intros Hfg. apply map_eq. intros k. rewrite !lookup_map_of_fun.
  case_decide; [by rewrite Hfg | done].
Qed.

Lemma map_of_fun_dom (r : gmap string R) (X : gset string) :
  dom r = X → r = map_of_fun (λ k, default 0 (r !! k)) X.
Proof.
  intros <-. apply map_eq. intros k. rewrite lookup_map_of_fun.
  case_decide as Hk.
  - apply elem_of_dom in Hk as [v Hv]. by rewrite Hv.
  - by apply not_elem_of_dom.
Qed.

Lemma mass_map_of_fun (f : string → R) (X : gset string) :
  mass (map_of_fun f X) = sumR (f <$> elements X).
Proof.
  unfold mass, map_of_fun, set_to_map.
  rewrite (sumR_perm _ (((λ n, (n, f n)) <$> elements X).*2)).
  - by rewrite <- list_fmap_compose.
  - apply fmap_Permutation, map_to_list_to_map.
    rewrite <- list_fmap_compose. simpl. rewrite list_fmap_id.
    apply NoDup_elements.
Qed.

Lemma lookup_foldl_insert (g : string → R) (l : list string)
    (m0 : gmap string R) (k : string) :
  foldl (λ m n, <[n := g n]> m) m0 l !! k
  = if decide (k ∈ l) then Some (g k) else m0 !! k.
Proof.
  revert m0. induction l as [|n l IH]; intros m0; simpl.
  - done.
  - rewrite IH. destruct (decide (k ∈ l)) as [Hl|Hl].
    + rewrite decide_True; [done | set_solver].
    + destruct (decide (k = n)) as [->|Hne].
      * rewrite lookup_insert_eq. rewrite decide_True; [done | set_solver].
      * rewrite lookup_insert_ne by done. rewrite decide_False; [done | set_solver].
Qed.

Lemma foldl_insert_map_of_fun (g : string → R) (l : list string)
    (X : gset string) :
  l ≡ₚ elements X → foldl (λ m n, <[n := g n]> m) ∅ l = map_of_fun g X.
Proof.
  intros Hp. apply map_eq. intros k.
  rewrite lookup_foldl_insert, lookup_map_of_fun.
  destruct (decide (k ∈ l)) as [Hl|Hl].
  - rewrite decide_True; [done|]. apply elem_of_elements. by rewrite <- Hp.
  - rewrite decide_False; [done|]. intros Hk. apply Hl. rewrite Hp.
    by apply elem_of_elements.
Qed.

Lemma foldlM_insert_Some (f : string → option R) (g : string → R)
    (l : list string) (m0 : gmap string R) :
  (∀ n, n ∈ l → f n = Some (g n)) →
  foldlM (λ m n, v ← f n; Some (<[n := v]> m)) m0 l
  = Some (foldl (λ m n, <[n := g n]> m) m0 l).
Proof.
  revert m0. induction l as [|n l IH]; intros m0 Hf; simpl; [done|].
  rewrite Hf by left. simpl. apply IH. intros n' Hn'. apply Hf. by right.
Qed.

Lemma repeatM_iter {A : Type} (n : nat) (f : A → option A) (g : A → A) (x : A) :
  (∀ y, f y = Some (g y)) → repeatM n f x = Some (Nat.iter n g x).
Proof.
  intros Hf. revert x. induction n as [|n IH]; intros x; simpl; [done|].
  rewrite Hf. simpl. rewrite IH. f_equal.
  clear. induction n as [|n IH]; simpl; [done | by rewrite IH].
Qed.

(** ** PageRank: the code computes the update rule *)

Section pagerank.
Variables (iter : set_order) (self : GravityIndexAnalyzer).
Implicit Types (rank : gmap string R) (damping : R).

Lemma length_set_iter (X : gset string) : length (iter X) = size X.
Proof. by rewrite (set_iter_perm iter X). Qed.

Lemma set_iter_nil (X : gset string) : iter X = [] ↔ X = ∅.
Proof.
  split.
  - intros Hnil. apply leibniz_equiv, size_empty_iff.
    by rewrite <- length_set_iter, Hnil.
  - intros ->. apply length_zero_iff_nil. by rewrite length_set_iter.
Qed.

Lemma INR_size_nonzero (X : gset string) : X ≠ ∅ → INR (size X) ≠ 0.
Proof.
  intros HX. apply not_0_INR. intros Hz. apply HX.
  by apply leibniz_equiv, size_empty_iff.
Qed.

Lemma pagerank_contrib_share rank damping new_pr m :
  pagerank_contrib self rank damping new_pr m
  = Some (new_pr + damping * spec_share self rank m).
Proof.
  unfold pagerank_contrib, spec_share, outdegree.
  destruct (rank !! m) as [pr|]; simpl.
  - case_decide as Hout.
    + rewrite decide_False by lia. unfold py_div.
      rewrite decide_False by (apply not_0_INR; lia). simpl.
      f_equal. unfold Rdiv. lra.
    + rewrite decide_True by lia. f_equal. lra.
  - f_equal. case_decide; unfold Rdiv; lra.
Qed.

Lemma foldlM_pagerank_contrib rank damping base (l : list string) :
  foldlM (pagerank_contrib self rank damping) base l
  = Some (base + damping * sumR (spec_share self rank <$> l)).
Proof.
  revert base. induction l as [|m l IH]; intros base; csimpl.
  - f_equal. lra.
  - rewrite pagerank_contrib_share. simpl. rewrite IH. f_equal. lra.
Qed.

Lemma pagerank_note_spec rank damping note :
  all_notes self ≠ ∅ →
  pagerank_note iter self (iter (all_notes self)) damping rank note
  = Some (spec_rank self damping rank note).
Proof.
  intros Hne. unfold pagerank_note, py_div.
  rewrite length_set_iter, decide_False by by apply INR_size_nonzero.
  simpl. rewrite foldlM_pagerank_contrib. unfold spec_rank.
  by rewrite (sumR_fmap_perm _ _ _ (set_iter_perm iter _)).
Qed.

Lemma pagerank_round_spec rank damping :
  all_notes self ≠ ∅ →
  pagerank_round iter self (iter (all_notes self)) damping rank
  = Some (spec_round self damping rank).
Proof.
  intros Hne. unfold pagerank_round.
  rewrite (foldlM_insert_Some _ (spec_rank self damping rank)).
  - f_equal. apply foldl_insert_map_of_fun, set_iter_perm.
  - intros n _. by apply pagerank_note_spec.
Qed.

Lemma pagerank_init_spec :
  all_notes self ≠ ∅ →
  pagerank_init (iter (all_notes self)) = Some (spec_init self).
Proof.
  intros Hne. unfold pagerank_init.
  rewrite (foldlM_insert_Some _ (λ _, 1 / INR (size (all_notes self)))).
  - f_equal. apply foldl_insert_map_of_fun, set_iter_perm.
  - intros n _. unfold py_div.
    rewrite length_set_iter, decide_False by by apply INR_size_nonzero.
    done.
Qed.

Lemma calculate_pagerank_spec iterations damping :
  all_notes self ≠ ∅ →
  calculate_pagerank iter self iterations damping
  = Some (spec_pagerank self iterations damping).
Proof.
  intros Hne. unfold calculate_pagerank.
  rewrite decide_False by by rewrite set_iter_nil.
  rewrite pagerank_init_spec by done. simpl.
  apply repeatM_iter. intros rank. by apply pagerank_round_spec.
Qed.

Lemma calculate_pagerank_empty iterations damping :
  all_notes self = ∅ →
  calculate_pagerank iter self iterations damping = Some ∅.
Proof.
  intros He. unfold calculate_pagerank.
  by rewrite decide_True by by rewrite set_iter_nil.
Qed.

Lemma dom_spec_pagerank iterations damping :
  dom (spec_pagerank self iterations damping) = all_notes self.
Proof.
  unfold spec_pagerank.
  destruct iterations; simpl; apply dom_map_of_fun.
Qed.
End pagerank.

(** C2: on a graph with at least one note, [calculate_pagerank] returns
    the distribution obtained from the initial one, where every note of
    [all_notes] has rank [1 / |all_notes|], by exactly [iterations] rounds
    (50 by default) of
    [rank'(n) = (1 - damping) / |all_notes|
              + damping * Σ over m ∈ backlinks[n] of rank(m) / outdegree(m)];
    each round is a function of the ranks of the round before, every
    predecessor has a rank, one of outdegree 0 adds nothing, and every
    round has one entry per member of [all_notes]. *)
Theorem pagerank_update_rule (iter : set_order) (self : GravityIndexAnalyzer)
    (iterations : nat) (damping : R) :
  scan_state self → all_notes self ≠ ∅ →
  let N := INR (size (all_notes self)) in
  let rounds k := spec_pagerank self k damping in
  calculate_pagerank iter self iterations damping = Some (rounds iterations)
  ∧ default_iterations = 50%nat
  ∧ (∀ n, n ∈ all_notes self → rounds 0%nat !! n = Some (1 / N))
  ∧ (∀ k n, n ∈ all_notes self →
       rounds (S k) !! n
       = Some ((1 - damping) / N
               + damping * sumR ((λ m, if decide (outdegree self m = 0%nat)
                                       then 0
                                       else default 0 (rounds k !! m)
                                            / INR (outdegree self m))
                                   <$> elements (dd_get (backlinks self) n))))
  ∧ (∀ k n m, m ∈ dd_get (backlinks self) n → is_Some (rounds k !! m))
  ∧ (∀ k, dom (rounds k) = all_notes self).
Proof.
  intros Hwf%scan_state_wf Hne N rounds. repeat split.
  - by apply calculate_pagerank_spec.
  - intros n Hn. unfold rounds, spec_pagerank, spec_init. simpl.
    by rewrite lookup_map_of_fun, decide_True.
  - intros k n Hn. unfold rounds, spec_pagerank. simpl. unfold spec_round.
    by rewrite lookup_map_of_fun, decide_True.
  - intros k n m Hm. apply elem_of_dom. unfold rounds.
    rewrite dom_spec_pagerank. by eapply wf_backlink_source.
  - intros k. apply dom_spec_pagerank.
Qed.

Lemma all_notes_mutual_vault : all_notes (scan_vault mutual_vault) ≠ ∅.
Proof.
  assert ("A"%string ∈ all_notes (scan_vault mutual_vault)) as HA
    by (vm_compute; reflexivity).
  set_solver.
Qed.

Lemma pagerank_update_rule_witness :
  (scan_state (scan_vault mutual_vault)
   ∧ all_notes (scan_vault mutual_vault) ≠ ∅)
  ∧ calculate_pagerank elements_order (scan_vault mutual_vault)
      default_iterations default_damping
    = Some (spec_pagerank (scan_vault mutual_vault)
              default_iterations default_damping).
Proof.
  assert (scan_state (scan_vault mutual_vault)) as H1
    by apply scan_vault_state.
  assert (all_notes (scan_vault mutual_vault) ≠ ∅) as H2
    by apply all_notes_mutual_vault.
  split; [done|].
  apply (pagerank_update_rule elements_order (scan_vault mutual_vault)
           default_iterations default_damping H1 H2).
Defined.

(** ** PageRank: the mass that leaks *)

Lemma Rdiv_nonneg (a b : R) : 0 <= a → 0 < b → 0 <= a / b.
Proof.
  intros Ha Hb. unfold Rdiv. apply Rmult_le_pos; [done|].
  left. by apply Rinv_0_lt_compat.
Qed.

Section leakage.
Variable self : GravityIndexAnalyzer.
Hypothesis Hwf : graph_wf self.
Hypothesis Hne : all_notes self ≠ ∅.
Implicit Types (rank : gmap string R) (damping : R).

Lemma sum_over_backlinks (h : string → R) :
  sumR ((λ n, sumR (h <$> elements (dd_get (backlinks self) n)))
          <$> elements (all_notes self))
  = sumR ((λ m, INR (outdegree self m) * h m) <$> elements (all_notes self)).
Proof.
  rewrite (sumR_fmap_ext _
    (λ n, sumR ((λ m, if decide (m ∈ dd_get (backlinks self) n)
                      then h m else 0) <$> elements (all_notes self)))).
  2:{ intros n _. apply sumR_subset. intros m Hm.
      by eapply wf_backlink_source. }
  rewrite (sumR_swap (λ n m, if decide (m ∈ dd_get (backlinks self) n)
                             then h m else 0)).
  apply sumR_fmap_ext. intros m _.
  rewrite (sumR_fmap_ext _
    (λ n, if decide (n ∈ dd_get (links self) m) then (λ _, h m) n else 0)).
  2:{ intros n _. pose proof (wf_symmetric _ Hwf m n).
      repeat case_decide; naive_solver. }
  rewrite <- sumR_subset.
  - rewrite sumR_fmap_const. by unfold outdegree, size, set_size.
  - intros n Hn. by eapply wf_target.
Qed.

Lemma outdegree_share rank m :
  INR (outdegree self m) * spec_share self rank m = kept self rank m.
Proof.
  unfold spec_share, kept. case_decide as Hz; [lra|].
  field. by apply not_0_INR.
Qed.

Lemma mass_spec_round rank damping :
  mass (spec_round self damping rank)
  = (1 - damping)
    + damping * sumR (kept self rank <$> elements (all_notes self)).
Proof.
  unfold spec_round. rewrite mass_map_of_fun. unfold spec_rank.
  rewrite sumR_fmap_plus, sumR_fmap_const, sumR_fmap_scal.
  rewrite sum_over_backlinks.
  rewrite (sumR_fmap_ext _ (kept self rank))
    by (intros m _; apply outdegree_share).
  unfold size, set_size. simpl.
  assert (INR (length (elements (all_notes self))) ≠ 0).
  { by apply (INR_size_nonzero (all_notes self)). }
  field. done.
Qed.

Lemma mass_dom rank :
  dom rank = all_notes self →
  mass rank
  = sumR ((λ m, default 0 (rank !! m)) <$> elements (all_notes self)).
Proof.
  intros Hdom. rewrite (map_of_fun_dom rank _ Hdom) at 1.
  apply mass_map_of_fun.
Qed.

Lemma mass_spec_init : mass (spec_init self) = 1.
Proof.
  unfold spec_init. rewrite mass_map_of_fun, sumR_fmap_const.
  assert (INR (length (elements (all_notes self))) ≠ 0).
  { by apply (INR_size_nonzero (all_notes self)). }
  unfold size, set_size. simpl. field. done.
Qed.

Lemma spec_init_pos m :
  m ∈ all_notes self → 0 < default 0 (spec_init self !! m).
Proof.
  intros Hm. unfold spec_init. rewrite lookup_map_of_fun, decide_True by done.
  simpl. apply Rdiv_lt_0_compat; [lra|].
  pose proof (pos_INR (size (all_notes self))).
  pose proof (INR_size_nonzero (all_notes self) Hne). lra.
Qed.

Lemma spec_init_nonneg : rank_nonneg (spec_init self).
Proof.
  intros m. unfold spec_init. rewrite lookup_map_of_fun.
  case_decide as Hm; simpl; [|lra].
  left. pose proof (spec_init_pos m Hm) as Hp. unfold spec_init in Hp.
  by rewrite lookup_map_of_fun, decide_True in Hp.
Qed.

Lemma spec_share_nonneg rank m : rank_nonneg rank → 0 <= spec_share self rank m.
Proof.
  intros Hr. unfold spec_share. case_decide as Hz; [lra|].
  apply Rdiv_nonneg; [apply Hr|].
  apply lt_0_INR. lia.
Qed.

Lemma spec_rank_nonneg rank damping n :
  0 <= damping <= 1 → rank_nonneg rank → 0 <= spec_rank self damping rank n.
Proof.
  intros Hd Hr. unfold spec_rank.
  assert (0 <= (1 - damping) / INR (size (all_notes self))).
  { apply Rdiv_nonneg; [lra|].
    pose proof (pos_INR (size (all_notes self))).
    pose proof (INR_size_nonzero (all_notes self) Hne). lra. }
  assert (0 <= sumR (spec_share self rank
                       <$> elements (dd_get (backlinks self) n))).
  { apply sumR_fmap_nonneg. intros m _. by apply spec_share_nonneg. }
  nra.
Qed.

Lemma spec_round_nonneg rank damping :
  0 <= damping <= 1 → rank_nonneg rank →
  rank_nonneg (spec_round self damping rank).
Proof.
  intros Hd Hr m. unfold spec_round. rewrite lookup_map_of_fun.
  case_decide; simpl; [by apply spec_rank_nonneg | lra].
Qed.

Lemma spec_pagerank_nonneg iterations damping :
  0 <= damping <= 1 → rank_nonneg (spec_pagerank self iterations damping).
Proof.
  intros Hd. unfold spec_pagerank.
  induction iterations as [|k IH]; simpl.
  - apply spec_init_nonneg.
  - by apply spec_round_nonneg.
Qed.

Lemma kept_le rank m : rank_nonneg rank → kept self rank m <= default 0 (rank !! m).
Proof. intros Hr. unfold kept. case_decide; [apply Hr | lra]. Qed.

Lemma mass_round_le rank damping :
  0 <= damping → rank_nonneg rank → dom rank = all_notes self →
  mass (spec_round self damping rank) <= (1 - damping) + damping * mass rank.
Proof.
  intros Hd Hr Hdom. rewrite mass_spec_round, (mass_dom rank Hdom).
  assert (sumR (kept self rank <$> elements (all_notes self))
          <= sumR ((λ m, default 0 (rank !! m)) <$> elements (all_notes self))).
  { apply sumR_fmap_le. intros m _. by apply kept_le. }
  nra.
Qed.

Lemma mass_first_round_lt damping m0 :
  0 < damping → m0 ∈ all_notes self → outdegree self m0 = 0%nat →
  mass (spec_round self damping (spec_init self)) < 1.
Proof.
  intros Hd Hm0 Hout. rewrite mass_spec_round.
  assert (sumR (kept self (spec_init self) <$> elements (all_notes self)) < 1).
  { rewrite <- mass_spec_init.
    rewrite (mass_dom (spec_init self)) by apply dom_map_of_fun.
    apply (sumR_fmap_lt _ _ _ m0).
    - by apply elem_of_elements.
    - unfold kept. rewrite decide_True by done. by apply spec_init_pos.
    - intros m _. apply kept_le, spec_init_nonneg. }
  nra.
Qed.

Lemma mass_leaks iterations damping m0 :
  0 < damping <= 1 → m0 ∈ all_notes self → outdegree self m0 = 0%nat →
  (1 <= iterations)%nat →
  mass (spec_pagerank self iterations damping) < 1.
Proof.
  intros Hd Hm0 Hout Hit.
  induction iterations as [|k IH]; [lia|].
  destruct k as [|k].
  - by apply (mass_first_round_lt damping m0); [lra|..].
  - assert (mass (spec_pagerank self (S k) damping) < 1) as Hk
      by (apply IH; lia).
    pose proof (mass_round_le (spec_pagerank self (S k) damping) damping
                  ltac:(lra)
                  (spec_pagerank_nonneg (S k) damping ltac:(lra))
                  (dom_spec_pagerank self (S k) damping)) as Hle.
    change (spec_pagerank self (S (S k)) damping)
      with (spec_round self damping (spec_pagerank self (S k) damping)).
    nra.
Qed.
End leakage.

Lemma foldlM_ext {A B : Type} (f g : B → A → option B) (b : B) (l : list A) :
  (∀ b' a, a ∈ l → f b' a = g b' a) → foldlM f b l = foldlM g b l.
Proof.
  revert b. induction l as [|a l IH]; intros b Hfg; simpl; [done|].
  rewrite Hfg by left. destruct (g b a); simpl; [|done].
  apply IH. intros b' a' Ha'. apply Hfg. by right.
Qed.

(** The rank of a note of outdegree 0 is not read by a round. *)
Lemma pagerank_round_sink (iter : set_order) (self : GravityIndexAnalyzer)
    (notes : list string) (damping : R) (m0 : string)
    (rank rank' : gmap string R) :
  outdegree self m0 = 0%nat →
  (∀ m, m ≠ m0 → rank !! m = rank' !! m) →
  pagerank_round iter self notes damping rank
  = pagerank_round iter self notes damping rank'.
Proof.
  intros Hout Hsame. unfold pagerank_round.
  apply foldlM_ext. intros new_pagerank note _.
  assert (pagerank_note iter self notes damping rank note
          = pagerank_note iter self notes damping rank' note) as ->; [|done].
  unfold pagerank_note. destruct (py_div _ _) as [base|]; simpl; [|done].
  apply foldlM_ext. intros new_pr m _. unfold pagerank_contrib.
  destruct (decide (m = m0)) as [->|Hne].
  - fold (outdegree self m0). rewrite Hout.
    destruct (rank !! m0), (rank' !! m0); done.
  - by rewrite Hsame.
Qed.

(** C3: when some note has outdegree 0, the ranks returned after at least
    one round sum to less than 1 (for a damping factor in (0, 1], the
    default 0.85 among them), and a round does not read the rank of that
    note: changing it changes no note's new rank. *)
Theorem pagerank_leakage (iter : set_order) (self : GravityIndexAnalyzer)
    (iterations : nat) (damping : R) (m0 : string) :
  scan_state self →
  m0 ∈ all_notes self → outdegree self m0 = 0%nat →
  (1 ≤ iterations)%nat → 0 < damping <= 1 →
  (∃ pagerank,
     calculate_pagerank iter self iterations damping = Some pagerank
     ∧ mass pagerank < 1)
  ∧ (∀ notes rank rank',
       (∀ m, m ≠ m0 → rank !! m = rank' !! m) →
       pagerank_round iter self notes damping rank
       = pagerank_round iter self notes damping rank').
Proof.
  intros Hwf%scan_state_wf Hm0 Hout Hit Hd.
  assert (all_notes self ≠ ∅) as Hne by set_solver.
  split.
  - exists (spec_pagerank self iterations damping). split.
    + by apply calculate_pagerank_spec.
    + by apply (mass_leaks self Hwf Hne iterations damping m0).
  - intros notes rank rank' Hsame. by apply (pagerank_round_sink _ _ _ _ m0).
Qed.

Lemma pagerank_leakage_witness :
  (scan_state (scan_vault dangling_vault)
   ∧ "X"%string ∈ all_notes (scan_vault dangling_vault)
   ∧ outdegree (scan_vault dangling_vault) "X" = 0%nat
   ∧ (1 ≤ default_iterations)%nat ∧ 0 < default_damping <= 1)
  ∧ ∃ pagerank,
      calculate_pagerank elements_order (scan_vault dangling_vault)
        default_iterations default_damping = Some pagerank
      ∧ mass pagerank < 1.
Proof.
  assert (scan_state (scan_vault dangling_vault)) as H1
    by apply scan_vault_state.
  assert ("X"%string ∈ all_notes (scan_vault dangling_vault)) as H2
    by (vm_compute; reflexivity).
  assert (outdegree (scan_vault dangling_vault) "X" = 0%nat) as H3
    by (vm_compute; reflexivity).
  assert (1 ≤ default_iterations)%nat as H4 by (unfold default_iterations; lia).
  assert (0 < default_damping <= 1) as H5 by (unfold default_damping; lra).
  split; [done|].
  apply (pagerank_leakage elements_order (scan_vault dangling_vault)
           default_iterations default_damping "X" H1 H2 H3 H4 H5).
Defined.

(** ** Sorting *)

Section sorting.
Context {A : Type} (lt : A → A → bool).

Lemma insert_sorted_perm x l : insert_sorted lt x l ≡ₚ x :: l.
Proof.
  induction l as [|y l IH]; simpl; [done|].
  destruct (lt y x); [|done]. rewrite IH. apply perm_swap.
Qed.

Lemma py_sorted_perm l : py_sorted lt l ≡ₚ l.
Proof.
  induction l as [|x l IH]; simpl; [done|].
  rewrite insert_sorted_perm. by rewrite IH.
Qed.

Lemma length_py_sorted l : length (py_sorted lt l) = length l.
Proof. by rewrite py_sorted_perm. Qed.

(** The result is ordered by any relation that holds between [x] and [y]
    whenever [y] is not less than [x]... *)
Variable ord : A → A → Prop.
Hypothesis ord_lt : ∀ x y, lt x y = true → ord x y.
Hypothesis ord_not_lt : ∀ x y, lt y x = false → ord x y.

Lemma insert_sorted_Sorted x l :
  Sorted ord l → Sorted ord (insert_sorted lt x l).
Proof.
  induction l as [|y l IH]; intros Hs; simpl.
  - by repeat constructor.
  - destruct (lt y x) eqn:Hyx.
    + inversion Hs as [|? ? Hl Hhd]; subst. constructor; [by apply IH|].
      destruct l as [|z l]; simpl.
      * constructor. by apply ord_lt.
      * destruct (lt z x); constructor; [|by apply ord_lt].
        by inversion Hhd.
    + constructor; [done|]. constructor. by apply ord_not_lt.
Qed.

Lemma py_sorted_Sorted l : Sorted ord (py_sorted lt l).
Proof.
  induction l as [|x l IH]; simpl; [constructor|].
  by apply insert_sorted_Sorted.
Qed.
End sorting.

(** ... and elements that the comparison does not separate keep their
    order: the sort is stable. *)
Lemma insert_sorted_stable {A : Type} (lt : A → A → bool) (P : A → Prop)
    `{∀ x, Decision (P x)} (x : A) (l : list A) :
  (∀ y, P x → P y → lt y x = false) →
  filter P (insert_sorted lt x l) = filter P (x :: l).
Proof.
  intros Hties. induction l as [|y l IH]; simpl; [done|].
  destruct (lt y x) eqn:Hyx; [|done].
  rewrite filter_cons, IH, !filter_cons.
  destruct (decide (P y)) as [Hy|Hy], (decide (P x)) as [Hx|Hx]; try done.
  by rewrite Hties in Hyx.
Qed.

Lemma py_sorted_stable {A : Type} (lt : A → A → bool) (P : A → Prop)
    `{∀ x, Decision (P x)} (l : list A) :
  (∀ x y, P x → P y → lt y x = false) →
  filter P (py_sorted lt l) = filter P l.
Proof.
  intros Hties. induction l as [|x l IH]; simpl; [done|].
  rewrite insert_sorted_stable by auto. by rewrite !filter_cons, IH.
Qed.

(** ** The 95th percentile *)

Lemma int_095_floor (n : nat) :
  INR (int_095 n) <= 0.95 * INR n < INR (int_095 n) + 1.
Proof.
  unfold int_095.
  pose proof (Nat.div_mod (95 * n) 100 ltac:(lia)) as Hdm.
  pose proof (Nat.mod_upper_bound (95 * n) 100 ltac:(lia)) as Hlt.
  set (q := (95 * n / 100)%nat) in *. set (r := (95 * n mod 100)%nat) in *.
  assert (INR (95 * n) = INR (100 * q + r)) as HR by (by rewrite Hdm).
  rewrite plus_INR, !mult_INR in HR.
  pose proof (pos_INR r). apply lt_INR in Hlt.
  replace (INR 95) with 95 in HR by (rewrite INR_IZR_INZ; reflexivity).
  replace (INR 100) with 100 in * by (rewrite INR_IZR_INZ; reflexivity).
  lra.
Qed.

Lemma int_095_clamped (n : nat) :
  (n ≠ 0 → int_095 n `min` (n - 1) < n)%nat.
Proof. lia. Qed.

Lemma sorted_positive_perm (values : list R) :
  py_sorted (λ a b, bool_decide (a < b)) (filter (λ v, 0 < v) values)
  ≡ₚ filter (λ v, 0 < v) values.
Proof. apply py_sorted_perm. Qed.

Lemma sorted_positive_Sorted (values : list R) :
  Sorted Rle
    (py_sorted (λ a b, bool_decide (a < b)) (filter (λ v, 0 < v) values)).
Proof.
  apply py_sorted_Sorted.
  - intros x y Hxy%bool_decide_eq_true. lra.
  - intros x y Hxy%bool_decide_eq_false. lra.
Qed.

Lemma get_95th_percentile_value (values : list R) :
  get_95th_percentile values = Some (p95_value values).
Proof.
  unfold get_95th_percentile, p95_value, spec_p95.
  set (sorted_vals := py_sorted _ _). case_decide as Hnil.
  - by rewrite Hnil.
  - destruct sorted_vals as [|v vs] eqn:Hs; [done|]. rewrite <- Hs.
    assert (length sorted_vals ≠ 0%nat) as Hlen by (rewrite Hs; done).
    pose proof (int_095_clamped _ Hlen) as Hidx.
    apply lookup_lt_is_Some_2 in Hidx as [x Hx]. rewrite Hx. f_equal.
    symmetry. by apply nth_lookup_Some with (d := 0) in Hx.
Qed.

Lemma p95_value_cases (values : list R) :
  (p95_value values ∈ values ∧ 0 < p95_value values)
  ∨ (p95_value values = 1 ∧ ∀ x, x ∈ values → ¬ 0 < x).
Proof.
  pose proof (get_95th_percentile_value values) as Hv.
  unfold get_95th_percentile in Hv.
  pose proof (sorted_positive_perm values) as Hp.
  set (sorted_vals := py_sorted _ _) in *. case_decide as Hnil.
  - right. split; [congruence|]. intros x Hx Hpos.
    assert (x ∈ sorted_vals) as Hin.
    { rewrite Hp. by apply list_elem_of_filter. }
    rewrite Hnil in Hin. by apply not_elem_of_nil in Hin.
  - left. apply list_elem_of_lookup_2 in Hv. rewrite Hp in Hv.
    by apply list_elem_of_filter in Hv as [? ?].
Qed.

Lemma p95_value_pos (values : list R) : 0 < p95_value values.
Proof. destruct (p95_value_cases values) as [[_ ?]|[-> _]]; [done | lra]. Qed.

Lemma multiplier_pos (weight p95 : R) :
  0 < p95 → multiplier weight p95 = Some (weight / p95).
Proof.
  intros Hp. unfold multiplier, py_div.
  rewrite decide_True by done. rewrite decide_False by lra. done.
Qed.

Lemma calculate_multipliers_spec (all_data : list note_data) :
  calculate_multipliers all_data = Some (spec_multipliers all_data).
Proof.
  unfold calculate_multipliers. rewrite !get_95th_percentile_value. simpl.
  rewrite !multiplier_pos by apply p95_value_pos. done.
Qed.

Lemma get_95th_percentile_one_to_ten :
  get_95th_percentile [1; 2; 3; 4; 5; 6; 7; 8; 9; 10] = Some 10.
Proof.
  unfold get_95th_percentile.
  repeat rewrite filter_cons_True by lra. rewrite filter_nil.
  cbn [py_sorted foldr insert_sorted]. decide_reals.
  rewrite decide_False by done. reflexivity.
Qed.

Lemma get_95th_percentile_nil : get_95th_percentile [] = Some 1.
Proof. reflexivity. Qed.

(** C5: [get_95th_percentile] keeps the strictly positive values, sorts
    them in ascending order and returns the element at index
    [floor(0.95 * n)] clamped to [n - 1], and 1 when no positive value
    remains; on 1, ..., 10 it returns 10 and on the empty sequence 1. *)
Theorem percentile_function (values : list R) :
  (∃ sorted_positive,
     sorted_positive ≡ₚ filter (λ v, 0 < v) values
     ∧ Sorted Rle sorted_positive
     ∧ get_95th_percentile values = Some (spec_p95 sorted_positive))
  ∧ (∀ n, INR (int_095 n) <= 0.95 * INR n < INR (int_095 n) + 1)
  ∧ get_95th_percentile [1; 2; 3; 4; 5; 6; 7; 8; 9; 10] = Some 10
  ∧ get_95th_percentile [] = Some 1.
Proof.
  split; [|split; [|split]].
  - eexists. split; [apply sorted_positive_perm|].
    split; [apply sorted_positive_Sorted|].
    apply get_95th_percentile_value.
  - apply int_095_floor.
  - apply get_95th_percentile_one_to_ten.
  - apply get_95th_percentile_nil.
Qed.

(** C10: [get_95th_percentile] returns a strictly positive value, an
    element of its input or 1 when the input has no positive element; so
    the branch of a multiplier that yields 0 is never taken, and each of
    the six multipliers is its target weight divided by the percentile of
    its metric. *)
Theorem percentile_positive (values : list R) (all_data : list note_data) :
  (∃ p95,
     get_95th_percentile values = Some p95
     ∧ 0 < p95
     ∧ (p95 ∈ values ∨ (p95 = 1 ∧ ∀ x, x ∈ values → ¬ 0 < x))
     ∧ ∀ weight, multiplier weight p95 = Some (weight / p95))
  ∧ (∃ p_incoming_log p_outgoing_log p_bidirectional p_efficiency
       p_pagerank_log p_integration,
       get_95th_percentile (d_incoming_log <$> all_data)
       = Some p_incoming_log
       ∧ get_95th_percentile (d_outgoing_log <$> all_data)
         = Some p_outgoing_log
       ∧ get_95th_percentile ((λ d, INR (d_bidirectional d)) <$> all_data)
         = Some p_bidirectional
       ∧ get_95th_percentile (d_bidirectional_efficiency <$> all_data)
         = Some p_efficiency
       ∧ get_95th_percentile (d_pagerank_log <$> all_data)
         = Some p_pagerank_log
       ∧ get_95th_percentile (d_integration_index <$> all_data)
         = Some p_integration
       ∧ calculate_multipliers all_data
         = Some (Multipliers (25 / p_incoming_log) (20 / p_outgoing_log)
                   (20 / p_bidirectional) (15 / p_efficiency)
                   (10 / p_pagerank_log) (10 / p_integration))).
Proof.
  split.
  - exists (p95_value values). split; [apply get_95th_percentile_value|].
    split; [apply p95_value_pos|]. split.
    + destruct (p95_value_cases values) as [[? _]|?]; [by left | by right].
    + intros weight. apply multiplier_pos, p95_value_pos.
  - do 6 eexists. repeat (split; [apply get_95th_percentile_value|]).
    apply calculate_multipliers_spec.
Qed.

(** ** The gravity index *)

Section gravity.
Variables (iter : set_order) (self : GravityIndexAnalyzer).
Implicit Types (pagerank_scores : gmap string R) (note : string).

Lemma not_qualifies note :
  ¬ qualifies self note
  ↔ size (dd_get (backlinks self) note) = 0%nat
    ∧ size (dd_get (links self) note) = 0%nat.
Proof. unfold qualifies, incoming_of, outgoing_of. lia. Qed.

Lemma py_log_succ (n : nat) : py_log (INR (n + 1)) = Some (ln (INR n + 1)).
Proof.
  unfold py_log. rewrite decide_True by (apply lt_0_INR; lia).
  by rewrite plus_INR.
Qed.

Lemma py_log_pagerank (pr : R) :
  0 <= pr → py_log (pr * 10000 + 1) = Some (ln (pr * 10000 + 1)).
Proof. intros Hpr. unfold py_log. by rewrite decide_True by lra. Qed.

Lemma py_div_efficiency (incoming bidirectional : nat) :
  (if decide (0 < incoming)%nat
   then py_div (INR bidirectional) (INR (incoming `max` 1))
   else Some 0)
  = Some (spec_efficiency incoming bidirectional).
Proof.
  unfold spec_efficiency, py_div. case_decide; [|done].
  by rewrite decide_False by (apply not_0_INR; lia).
Qed.

Lemma py_sqrt_integration (bidirectional outgoing : nat) (efficiency : R) :
  py_sqrt (INR ((bidirectional `max` 1) * (outgoing `max` 1))
           * Rmax efficiency 0.01)
  = Some (spec_integration_index bidirectional outgoing efficiency).
Proof.
  unfold py_sqrt, spec_integration_index. rewrite decide_True.
  - by rewrite mult_INR.
  - apply Rmult_le_pos; [apply pos_INR|].
    pose proof (Rmax_r efficiency 0.01). lra.
Qed.

Lemma note_metrics_spec pagerank_scores note :
  rank_nonneg pagerank_scores →
  note_metrics self pagerank_scores note
  = Some (if decide (qualifies self note)
          then Some (spec_data self pagerank_scores note)
          else None).
Proof.
  intros Hr. unfold note_metrics. case_decide as Hiso.
  { by rewrite decide_False by by apply not_qualifies. }
  rewrite (decide_True (P := qualifies self note))
    by (unfold qualifies, incoming_of, outgoing_of; lia).
  rewrite !py_log_succ. simpl. rewrite py_div_efficiency. simpl.
  rewrite py_sqrt_integration. simpl.
  rewrite py_log_pagerank by apply Hr. simpl. done.
Qed.

Lemma collect_data_spec pagerank_scores (notes : list string) :
  rank_nonneg pagerank_scores →
  collect_data self pagerank_scores notes
  = Some (spec_data self pagerank_scores <$> filter (qualifies self) notes).
Proof.
  intros Hr. induction notes as [|note notes IH]; csimpl; [done|].
  rewrite note_metrics_spec by done. simpl. rewrite IH. simpl.
  rewrite filter_cons. by case_decide.
Qed.

Lemma dict_set_fresh {V} (k : string) (v : V) (d : list (string * V)) :
  k ∉ d.*1 → dict_set k v d = d ++ [(k, v)].
Proof.
  induction d as [|[k' v'] d IH]; intros Hk; simpl; [done|].
  rewrite decide_False by set_solver. rewrite IH; [done | set_solver].
Qed.

Lemma foldl_dict_set_fresh (m : multipliers) (all_data : list note_data)
    (acc : list (string * gravity_score)) :
  NoDup (acc.*1 ++ (d_note <$> all_data)) →
  foldl (λ gravity_scores data,
           dict_set (d_note data) (score m data) gravity_scores)
        acc all_data
  = acc ++ ((λ data, (d_note data, score m data)) <$> all_data).
Proof.
  revert acc. induction all_data as [|data all_data IH]; intros acc Hnd; csimpl.
  - by rewrite app_nil_r.
  - apply NoDup_app in Hnd as Hnd'. destruct Hnd' as (Hacc & Hdisj & Hnd').
    rewrite dict_set_fresh by (intros Hin; apply (Hdisj _ Hin); left).
    rewrite IH.
    + by rewrite <- app_assoc.
    + rewrite fmap_app. simpl. rewrite <- app_assoc. done.
Qed.

Lemma fill_scores_spec (m : multipliers) (all_data : list note_data) :
  NoDup (d_note <$> all_data) →
  fill_scores m all_data = (λ data, (d_note data, score m data)) <$> all_data.
Proof. intros Hnd. unfold fill_scores. by rewrite foldl_dict_set_fresh. Qed.

Lemma d_note_spec_data pagerank_scores (notes : list string) :
  d_note <$> (spec_data self pagerank_scores <$> notes) = notes.
Proof.
  rewrite <- list_fmap_compose. induction notes as [|n notes IH]; csimpl; [done|].
  by rewrite IH.
Qed.

Lemma NoDup_set_iter (X : gset string) : NoDup (iter X).
Proof. rewrite (set_iter_perm iter X). apply NoDup_elements. Qed.

Lemma calculate_gravity_index_spec :
  calculate_gravity_index iter self
  = Some (sort_by_total (spec_scores iter self)).
Proof.
  unfold calculate_gravity_index, spec_scores, spec_all_data.
  destruct (decide (all_notes self = ∅)) as [He|Hne].
  - rewrite calculate_pagerank_empty by done. simpl.
    by rewrite (proj2 (set_iter_nil iter _) He).
  - rewrite calculate_pagerank_spec by done. simpl.
    rewrite collect_data_spec; last first.
    { apply spec_pagerank_nonneg; [done|]. unfold default_damping. lra. }
    simpl. case_decide as Hnil; [by rewrite Hnil|].
    rewrite calculate_multipliers_spec. simpl. f_equal. f_equal.
    apply fill_scores_spec. rewrite d_note_spec_data.
    apply NoDup_filter, NoDup_set_iter.
Qed.
End gravity.

Section records.
Variables (iter : set_order) (self : GravityIndexAnalyzer).

Lemma spec_scores_keys :
  (spec_scores iter self).*1 = filter (qualifies self) (iter (all_notes self)).
Proof.
  unfold spec_scores. rewrite <- list_fmap_compose.
  unfold spec_all_data. apply d_note_spec_data.
Qed.

Lemma elem_of_spec_scores note r :
  (note, r) ∈ spec_scores iter self
  ↔ note ∈ all_notes self ∧ qualifies self note
    ∧ r = score (spec_multipliers (spec_all_data iter self))
                (spec_data self
                   (spec_pagerank self default_iterations default_damping)
                   note).
Proof.
  unfold spec_scores. rewrite list_elem_of_fmap. unfold spec_all_data at 2.
  setoid_rewrite list_elem_of_fmap. setoid_rewrite list_elem_of_filter.
  setoid_rewrite (set_iter_perm iter (all_notes self)).
  setoid_rewrite elem_of_elements. split.
  - intros (d & [= -> ->] & n & -> & Hq & Hn). done.
  - intros (Hn & Hq & ->). eexists. split; [|eauto]. done.
Qed.

Lemma sort_by_total_perm (items : list (string * gravity_score)) :
  sort_by_total items ≡ₚ items.
Proof. apply py_sorted_perm. Qed.

Lemma sort_by_total_Sorted (items : list (string * gravity_score)) :
  Sorted (λ x y, total y.2 <= total x.2) (sort_by_total items).
Proof.
  apply py_sorted_Sorted.
  - intros x y Hxy%bool_decide_eq_true. lra.
  - intros x y Hxy%bool_decide_eq_false. lra.
Qed.

Lemma sort_by_total_stable (items : list (string * gravity_score)) (t : R) :
  filter (λ item, total item.2 = t) (sort_by_total items)
  = filter (λ item, total item.2 = t) items.
Proof.
  apply (py_sorted_stable _ (λ item, total item.2 = t)).
  intros x y Hx Hy. apply bool_decide_eq_false. lra.
Qed.

Lemma elem_of_gravity_keys note :
  note ∈ (sort_by_total (spec_scores iter self)).*1
  ↔ note ∈ all_notes self ∧ qualifies self note.
Proof.
  rewrite sort_by_total_perm, spec_scores_keys, list_elem_of_filter.
  rewrite (set_iter_perm iter (all_notes self)), elem_of_elements. tauto.
Qed.

Lemma qualifies_all_notes note :
  graph_wf self → qualifies self note → note ∈ all_notes self.
Proof.
  intros Hwf [Hin|Hout].
  - apply size_pos_elem_of in Hin as [a Ha].
    apply (wf_symmetric _ Hwf) in Ha. by eapply wf_target.
  - apply size_pos_elem_of in Hout as [b Hb].
    eapply wf_notes, wf_source; eauto.
Qed.

Lemma filter_none {A : Type} (P : A → Prop) `{∀ x, Decision (P x)}
    (l : list A) :
  (∀ x, x ∈ l → ¬ P x) → filter P l = [].
Proof.
  induction l as [|x l IH]; intros Hl; [done|].
  rewrite filter_cons_False by (apply Hl; left).
  apply IH. intros y Hy. apply Hl. by right.
Qed.

Lemma no_qualifying_note_empty :
  (∀ note, note ∈ all_notes self → ¬ qualifies self note) →
  spec_scores iter self = [].
Proof.
  intros Hiso. apply fmap_nil_inv with (f := fst).
  rewrite spec_scores_keys. apply filter_none. intros note Hn. apply Hiso.
  apply elem_of_elements. by rewrite <- (set_iter_perm iter (all_notes self)).
Qed.
End records.

(** C9: with no note at all [calculate_pagerank] returns the empty
    mapping, and when no note has a link (in particular with no note at
    all) [calculate_gravity_index] returns the empty result; in both
    cases a value is returned and nothing is raised. *)
Theorem empty_results (iter : set_order) (self : GravityIndexAnalyzer)
    (iterations : nat) (damping : R) :
  (all_notes self = ∅ →
   calculate_pagerank iter self iterations damping = Some ∅
   ∧ calculate_gravity_index iter self = Some [])
  ∧ ((∀ note, note ∈ all_notes self →
        size (dd_get (backlinks self) note) = 0%nat
        ∧ size (dd_get (links self) note) = 0%nat) →
     calculate_gravity_index iter self = Some []).
Proof.
  assert ((∀ note, note ∈ all_notes self →
             size (dd_get (backlinks self) note) = 0%nat
             ∧ size (dd_get (links self) note) = 0%nat) →
          calculate_gravity_index iter self = Some []) as Hiso.
  { intros Hiso. rewrite calculate_gravity_index_spec.
    rewrite no_qualifying_note_empty; [done|].
    intros note Hn. apply not_qualifies. by apply Hiso. }
  split; [|done]. intros He. split.
  - by apply calculate_pagerank_empty.
  - apply Hiso. intros note Hn. rewrite He in Hn. set_solver.
Qed.

Lemma empty_results_witness :
  (all_notes init = ∅
   ∧ calculate_pagerank elements_order init default_iterations default_damping
     = Some ∅
   ∧ calculate_gravity_index elements_order init = Some [])
  ∧ ((∀ note, note ∈ all_notes (scan_vault isolated_vault) →
        size (dd_get (backlinks (scan_vault isolated_vault)) note) = 0%nat
        ∧ size (dd_get (links (scan_vault isolated_vault)) note) = 0%nat)
     ∧ calculate_gravity_index elements_order (scan_vault isolated_vault)
       = Some []).
Proof.
  split.
  - split; [reflexivity|].
    apply (empty_results elements_order init default_iterations
             default_damping).
    reflexivity.
  - assert (∀ note, note ∈ all_notes (scan_vault isolated_vault) →
        size (dd_get (backlinks (scan_vault isolated_vault)) note) = 0%nat
        ∧ size (dd_get (links (scan_vault isolated_vault)) note) = 0%nat)
      as Hiso.
    { intros note _. split; vm_compute; reflexivity. }
    split; [exact Hiso|].
    apply (empty_results elements_order (scan_vault isolated_vault)
             default_iterations default_damping).
    exact Hiso.
Defined.

(** C8: a note has a record in the result exactly when it has an incoming
    or an outgoing link, and then exactly one; a name that is linked to but
    has no file (incoming 1, outgoing 0) has a record, marked as not
    existing. *)
Theorem record_iff_connected (iter : set_order) (vault : list md_file) :
  (∃ out,
     calculate_gravity_index iter (scan_vault vault) = Some out
     ∧ NoDup out.*1
     ∧ ∀ note,
         note ∈ out.*1
         ↔ (0 < size (dd_get (backlinks (scan_vault vault)) note)
            ∨ 0 < size (dd_get (links (scan_vault vault)) note))%nat)
  ∧ (∃ out r,
       calculate_gravity_index iter (scan_vault dangling_vault) = Some out
       ∧ ("X"%string, r) ∈ out
       ∧ incoming r = 1%nat ∧ outgoing r = 0%nat ∧ exists_ r = false).
Proof.
  split.
  - eexists. split; [apply calculate_gravity_index_spec|]. split.
    + rewrite sort_by_total_perm, spec_scores_keys.
      apply NoDup_filter, NoDup_set_iter.
    + intros note. rewrite elem_of_gravity_keys.
      fold (incoming_of (scan_vault vault) note)
        (outgoing_of (scan_vault vault) note).
      fold (qualifies (scan_vault vault) note).
      split; [tauto|]. intros Hq. split; [|done].
      by apply qualifies_all_notes; [apply scan_vault_wf|].
  - eexists _, _. split; [apply calculate_gravity_index_spec|].
    split; [|split; [|split]].
    + rewrite sort_by_total_perm. apply elem_of_spec_scores.
      split; [by vm_compute|]. split; [|reflexivity].
      left. vm_compute. lia.
    + vm_compute. reflexivity.
    + vm_compute. reflexivity.
    + vm_compute. reflexivity.
Qed.

Lemma calculate_pagerank_total (iter : set_order) (self : GravityIndexAnalyzer)
    (iterations : nat) (damping : R) :
  0 <= damping <= 1 →
  ∃ pagerank,
    calculate_pagerank iter self iterations damping = Some pagerank
    ∧ rank_nonneg pagerank
    ∧ (all_notes self ≠ ∅ → pagerank = spec_pagerank self iterations damping).
Proof.
  intros Hd. destruct (decide (all_notes self = ∅)) as [He|Hne].
  - exists ∅. split; [by apply calculate_pagerank_empty|]. split; [|done].
    intros m. rewrite lookup_empty. simpl. lra.
  - exists (spec_pagerank self iterations damping).
    split; [by apply calculate_pagerank_spec|]. split; [|done].
    by apply spec_pagerank_nonneg.
Qed.

(** C4: every qualifying note, that is every note of [all_notes] with an
    incoming or an outgoing link (in a state the scan reaches, every note
    with such a link), has a record in the result, and no note has two;
    every record of the result carries the counts of its note, the four
    step-function bonuses, the six components computed from them with the
    multipliers of the run, and as [total] the sum of the six. *)
Theorem gravity_components (iter : set_order) (self : GravityIndexAnalyzer) :
  ∃ out pagerank_scores all_data m,
    calculate_gravity_index iter self = Some out
    ∧ calculate_pagerank iter self default_iterations default_damping
      = Some pagerank_scores
    ∧ collect_data self pagerank_scores (iter (all_notes self))
      = Some all_data
    ∧ calculate_multipliers all_data = Some m
    ∧ NoDup out.*1
    ∧ (∀ note,
         note ∈ all_notes self ∨ scan_state self →
         (0 < size (dd_get (backlinks self) note)
          ∨ 0 < size (dd_get (links self) note))%nat →
         ∃ r, (note, r) ∈ out)
    ∧ ∀ note r, (note, r) ∈ out →
        let n_in := size (dd_get (backlinks self) note) in
        let n_out := size (dd_get (links self) note) in
        let n_bi :=
          size (dd_get (links self) note ∩ dd_get (backlinks self) note) in
        let efficiency :=
          if decide (0 < n_in)%nat
          then INR n_bi / INR (n_in `max` 1) else 0 in
        incoming r = n_in ∧ outgoing r = n_out ∧ bidirectional r = n_bi
        ∧ bidirectional_efficiency r = efficiency
        ∧ scale_bonus r
          = (if decide (20 ≤ n_in ∧ n_in ≤ 100)%nat then 1.5 else 1.0)
        ∧ curation_bonus r = (if decide (15 ≤ n_out)%nat then 1.3 else 1.0)
        ∧ conversation_bonus r
          = (if decide (10 ≤ n_bi)%nat then 1.2 else 1.0)
        ∧ quality_bonus r = (if decide (0.25 < efficiency) then 2.0 else 0.5)
        ∧ integration_index r
          = sqrt (INR (n_bi `max` 1) * INR (n_out `max` 1)
                  * Rmax efficiency 0.01)
        ∧ authority_component r
          = ln (INR n_in + 1) * scale_bonus r * authority_multiplier m
        ∧ curation_component r
          = ln (INR n_out + 1) * curation_bonus r * curation_multiplier m
        ∧ conversation_component r
          = INR n_bi * conversation_bonus r * conversation_multiplier m
        ∧ quality_component r
          = efficiency * quality_bonus r * quality_multiplier m
        ∧ network_component r
          = ln (default 0 (pagerank_scores !! note) * 10000 + 1)
            * network_multiplier m
        ∧ integration_component r
          = integration_index r * integration_multiplier m
        ∧ total r
          = authority_component r + curation_component r
            + conversation_component r + quality_component r
            + network_component r + integration_component r.
Proof.
  destruct (calculate_pagerank_total iter self default_iterations
              default_damping) as (pagerank_scores & Hpr & Hnn & Hspec).
  { unfold default_damping. lra. }
  exists (sort_by_total (spec_scores iter self)), pagerank_scores,
    (spec_data self pagerank_scores
       <$> filter (qualifies self) (iter (all_notes self))).
  eexists. split; [apply calculate_gravity_index_spec|].
  split; [done|]. split; [by apply collect_data_spec|].
  split; [apply calculate_multipliers_spec|].
  split.
  { rewrite sort_by_total_perm, spec_scores_keys.
    apply NoDup_filter, NoDup_set_iter. }
  split.
  { intros note Hn Hq. eexists. rewrite sort_by_total_perm.
    apply elem_of_spec_scores. split; [|split; [exact Hq | reflexivity]].
    destruct Hn as [Hn|Hs]; [done|].
    by apply qualifies_all_notes; [apply scan_state_wf|]. }
  intros note r Hr. rewrite sort_by_total_perm in Hr.
  apply elem_of_spec_scores in Hr as (Hn & Hq & ->).
  rewrite Hspec by set_solver. unfold spec_all_data.
  repeat split.
Qed.

(** C1 as the code has it: the result holds the records of all the
    qualifying notes, each once, sorted by descending [total]; the sort
    has no second key and is stable, so records of equal total stay in the
    order in which [all_notes] was iterated. *)
Theorem sorted_by_total (iter : set_order) (self : GravityIndexAnalyzer) :
  ∃ out scores,
    calculate_gravity_index iter self = Some out
    ∧ scores.*1 = filter (qualifies self) (iter (all_notes self))
    ∧ out ≡ₚ scores
    ∧ Sorted (λ x y, total y.2 <= total x.2) out
    ∧ ∀ t, filter (λ item, total item.2 = t) out
           = filter (λ item, total item.2 = t) scores.
Proof.
  exists (sort_by_total (spec_scores iter self)), (spec_scores iter self).
  split; [apply calculate_gravity_index_spec|].
  split; [apply spec_scores_keys|].
  split; [apply sort_by_total_perm|].
  split; [apply sort_by_total_Sorted|].
  apply sort_by_total_stable.
Qed.

(** ** The mutual pair, iterated with B first *)

Local Abbreviation mutual_graph := (scan_vault mutual_vault).

Lemma mutual_backlinks :
  elements (dd_get (backlinks mutual_graph) "A") = ["B"%string]
  ∧ elements (dd_get (backlinks mutual_graph) "B") = ["A"%string].
Proof. split; vm_compute; reflexivity. Qed.

Lemma mutual_outdegree :
  outdegree mutual_graph "A" = 1%nat ∧ outdegree mutual_graph "B" = 1%nat.
Proof. split; vm_compute; reflexivity. Qed.

Lemma mutual_all_notes :
  "A"%string ∈ all_notes mutual_graph ∧ "B"%string ∈ all_notes mutual_graph.
Proof. split; vm_compute; reflexivity. Qed.

Lemma mutual_counts :
  incoming_of mutual_graph "A" = incoming_of mutual_graph "B"
  ∧ outgoing_of mutual_graph "A" = outgoing_of mutual_graph "B"
  ∧ bidirectional_of mutual_graph "A" = bidirectional_of mutual_graph "B".
Proof. repeat split; vm_compute; reflexivity. Qed.

Lemma mutual_order :
  filter (qualifies mutual_graph) (reverse_order (all_notes mutual_graph))
  = ["B"; "A"]%string.
Proof. vm_compute. reflexivity. Qed.

Lemma mutual_ranks_equal (k : nat) (damping : R) :
  spec_pagerank mutual_graph k damping !! "A"%string
  = spec_pagerank mutual_graph k damping !! "B"%string.
Proof.
  destruct mutual_all_notes as [HA HB].
  destruct mutual_backlinks as [HbA HbB].
  destruct mutual_outdegree as [HoA HoB].
  induction k as [|k IH].
  - change (spec_pagerank mutual_graph 0 damping) with (spec_init mutual_graph).
    unfold spec_init. by rewrite !lookup_map_of_fun, !decide_True.
  - change (spec_pagerank mutual_graph (S k) damping)
      with (spec_round mutual_graph damping
              (spec_pagerank mutual_graph k damping)).
    unfold spec_round. rewrite !lookup_map_of_fun, !decide_True by done.
    f_equal. unfold spec_rank. rewrite HbA, HbB, !fmap_cons, !fmap_nil.
    unfold spec_share. by rewrite HoA, HoB, IH.
Qed.

Lemma mutual_totals_equal (m : multipliers) (pagerank_scores : gmap string R) :
  pagerank_scores !! "A"%string = pagerank_scores !! "B"%string →
  total (score m (spec_data mutual_graph pagerank_scores "A"))
  = total (score m (spec_data mutual_graph pagerank_scores "B")).
Proof.
  intros Hpr. destruct mutual_counts as (Hin & Hout & Hbi).
  unfold spec_data. rewrite Hin, Hout, Hbi, Hpr. reflexivity.
Qed.

(** C1, counterexample: for the mutual pair A and B the two totals are
    equal, and when the set [all_notes] is iterated with B first the
    result lists B before A. *)
Lemma tie_keeps_iteration_order :
  ∃ rA rB,
    calculate_gravity_index reverse_order (scan_vault mutual_vault)
    = Some [("B"%string, rB); ("A"%string, rA)]
    ∧ total rA = total rB.
Proof.
  eexists _, _. rewrite calculate_gravity_index_spec.
  unfold spec_scores, spec_all_data. rewrite mutual_order.
  rewrite !fmap_cons, !fmap_nil.
  unfold sort_by_total. cbn [py_sorted foldr insert_sorted snd d_note].
  rewrite bool_decide_eq_false_2.
  - split; [reflexivity|].
    apply mutual_totals_equal, mutual_ranks_equal.
  - rewrite (mutual_totals_equal _ _ (mutual_ranks_equal _ _)). lra.
Qed.

(** * Further properties of the code *)

(** ** What the scan records *)

Section scan.
Implicit Types (self : GravityIndexAnalyzer) (vault : list md_file).

Lemma dict_get_dict_set {V} (k k' : string) (v : V) (d : list (string * V)) :
  dict_get k' (dict_set k v d)
  = if decide (k' = k) then Some v else dict_get k' d.
Proof.
  induction d as [|[k0 v0] d IH]; simpl.
  - by destruct (decide (k' = k)).
  - destruct (decide (k = k0)) as [->|Hne]; simpl.
    + by destruct (decide (k' = k0)).
    + rewrite IH. destruct (decide (k' = k0)) as [->|?]; [|done].
      by rewrite decide_False by done.
Qed.

Lemma NoDup_dict_set {V} (k : string) (v : V) (d : list (string * V)) :
  NoDup d.*1 → NoDup (dict_set k v d).*1.
Proof.
  induction d as [|[k0 v0] d IH]; simpl; intros Hnd.
  - apply NoDup_singleton.
  - apply NoDup_cons in Hnd as [Hk0 Hnd].
    destruct (decide (k = k0)) as [->|Hne]; simpl.
    + by apply NoDup_cons.
    + apply NoDup_cons. split; [|by apply IH].
      rewrite elem_of_dict_set_keys. naive_solver.
Qed.

Lemma dict_get_Some_elem_of {V} (k : string) (v : V) (d : list (string * V)) :
  NoDup d.*1 → (dict_get k d = Some v ↔ (k, v) ∈ d).
Proof.
  induction d as [|[k0 v0] d IH]; simpl; intros Hnd.
  - split; [done|]. by intros ?%not_elem_of_nil.
  - apply NoDup_cons in Hnd as [Hk0 Hnd]. rewrite elem_of_cons.
    destruct (decide (k = k0)) as [->|Hne].
    + split; [intros [= ->]; by left|]. intros [[= ->]|Hin]; [done|].
      destruct Hk0. apply list_elem_of_fmap. by exists (k0, v).
    + rewrite IH by done. naive_solver.
Qed.

Lemma dict_get_is_Some {V} (k : string) (d : list (string * V)) :
  is_Some (dict_get k d) ↔ k ∈ d.*1.
Proof.
  induction d as [|[k0 v0] d IH]; simpl.
  - split; [by intros [? ?] | by intros ?%not_elem_of_nil].
  - rewrite elem_of_cons. destruct (decide (k = k0)) as [->|Hne].
    + split; [by left | by eexists].
    + rewrite IH. naive_solver.
Qed.

(** The first loop only fills [notes] and [all_notes]. *)
Lemma registered_links vault self :
  links (foldl register_file self vault) = links self
  ∧ backlinks (foldl register_file self vault) = backlinks self.
Proof.
  revert self. induction vault as [|f vault IH]; intros self; simpl; [done|].
  destruct (IH (register_file self f)) as [-> ->].
  unfold register_file. by destruct (skipped f).
Qed.

Lemma registered_NoDup vault self :
  NoDup (notes self).*1 → NoDup (notes (foldl register_file self vault)).*1.
Proof.
  revert self. induction vault as [|f vault IH]; intros self Hnd; simpl; [done|].
  apply IH. unfold register_file. destruct (skipped f); [done|].
  simpl. by apply NoDup_dict_set.
Qed.

Lemma registered_dict_get vault self a :
  dict_get a (notes (foldl register_file self vault))
  = match last (files_named a vault) with
    | Some f => Some f
    | None => dict_get a (notes self)
    end.
Proof.
  revert self. induction vault as [|f vault IH]; intros self; simpl; [done|].
  rewrite IH. unfold files_named. rewrite filter_cons.
  unfold register_file. destruct (skipped f) eqn:Hskip.
  - rewrite decide_False by naive_solver. done.
  - simpl. rewrite dict_get_dict_set.
    destruct (decide (a = stem f)) as [->|Hne].
    + rewrite decide_True by done.
      destruct (filter _ vault) as [|f' l] eqn:Hl; [done|].
      change (last (f :: f' :: l)) with (last (f' :: l)).
      destruct (last (f' :: l)) eqn:Hlast; [done|].
      by apply last_None in Hlast.
    + rewrite decide_False by naive_solver. done.
Qed.

(** The second loop adds, for every item, its targets. *)
Lemma elem_of_links_add_links self item a b :
  b ∈ dd_get (links (add_links self item)) a
  ↔ b ∈ dd_get (links self) a ∨ (a = item.1 ∧ b ∈ wiki_links item.2).
Proof.
  unfold add_links. generalize (wiki_links item.2). intros targets.
  revert self. induction targets as [|t targets IH]; intros self; simpl.
  - rewrite elem_of_nil. naive_solver.
  - rewrite IH. simpl. rewrite elem_of_dd_get_dd_add, elem_of_cons.
    naive_solver.
Qed.

Lemma elem_of_links_linked items self a b :
  b ∈ dd_get (links (foldl add_links self items)) a
  ↔ b ∈ dd_get (links self) a ∨ ∃ f, (a, f) ∈ items ∧ b ∈ wiki_links f.
Proof.
  revert self. induction items as [|[a' f'] items IH]; intros self; simpl.
  - split; [by left|]. intros [?|(f & Hf & _)]; [done|].
    by apply not_elem_of_nil in Hf.
  - rewrite IH, elem_of_links_add_links. simpl. split.
    + intros [[?|[-> ?]]|(f & Hf & Hb)].
      * by left.
      * right. exists f'. split; [left | done].
      * right. exists f. split; [by right | done].
    + intros [?|(f & [[= -> ->]|Hf]%elem_of_cons & Hb)].
      * by left; left.
      * left. by right.
      * right. by exists f.
Qed.

Lemma notes_linked items self : notes (foldl add_links self items) = notes self.
Proof.
  revert self. induction items as [|item items IH]; intros self; simpl; [done|].
  by rewrite IH, notes_add_links.
Qed.

Lemma scan_vault_notes vault :
  notes (scan_vault vault) = notes (foldl register_file init vault).
Proof. unfold scan_vault. apply notes_linked. Qed.

Lemma scan_vault_links vault a b :
  b ∈ dd_get (links (scan_vault vault)) a
  ↔ ∃ f, last (files_named a vault) = Some f ∧ b ∈ wiki_links f.
Proof.
  unfold scan_vault. rewrite elem_of_links_linked.
  destruct (registered_links vault init) as [-> _].
  pose proof (registered_NoDup vault init ltac:(constructor)) as Hnd.
  pose proof (registered_dict_get vault init a) as Hget. simpl in Hget.
  split.
  - intros [Hb|(f & Hf & Hb)].
    + unfold dd_get in Hb. simpl in Hb. by apply not_elem_of_empty in Hb.
    + exists f. split; [|done]. apply dict_get_Some_elem_of in Hf; [|done].
      rewrite Hf in Hget. by destruct (last (files_named a vault)).
  - intros (f & Hf & Hb). right. exists f. split; [|done].
    apply dict_get_Some_elem_of; [done|]. by rewrite Hget, Hf.
Qed.
End scan.

(** Every name in [all_notes] is a file name or the target of a link. *)
Lemma scan_state_all_notes (self : GravityIndexAnalyzer) (x : string) :
  scan_state self →
  x ∈ all_notes self →
  x ∈ (notes self).*1 ∨ ∃ a, a ∈ dd_get (backlinks self) x.
Proof.
  induction 1 as [|self f Hs IH|self note_name link_target Hs IH Hin].
  - intros Hx. by apply not_elem_of_empty in Hx.
  - unfold register_file. destruct (skipped f); [done|]. simpl.
    rewrite elem_of_union, elem_of_singleton, elem_of_dict_set_keys.
    naive_solver.
  - simpl. rewrite elem_of_union, elem_of_singleton.
    setoid_rewrite elem_of_dd_get_dd_add. naive_solver.
Qed.

Lemma files_named_nonempty (a : string) (vault : list md_file) :
  files_named a vault ≠ [] ↔ ∃ f, f ∈ vault ∧ skipped f = false ∧ stem f = a.
Proof.
  unfold files_named. split.
  - destruct (filter _ vault) as [|f l] eqn:Hl; [done|]. intros _.
    assert (f ∈ filter (λ f, skipped f = false ∧ stem f = a) vault) as Hf
      by (rewrite Hl; left).
    apply list_elem_of_filter in Hf. naive_solver.
  - intros (f & Hf & Hskip & Hstem) Hnil.
    assert (f ∈ filter (λ f, skipped f = false ∧ stem f = a) vault) as Hin
      by (by apply list_elem_of_filter).
    rewrite Hnil in Hin. by apply not_elem_of_nil in Hin.
Qed.

Lemma scan_vault_note_keys (vault : list md_file) (a : string) :
  a ∈ (notes (scan_vault vault)).*1
  ↔ ∃ f, f ∈ vault ∧ skipped f = false ∧ stem f = a.
Proof.
  rewrite scan_vault_notes, <- dict_get_is_Some, registered_dict_get.
  rewrite <- files_named_nonempty. simpl.
  destruct (last (files_named a vault)) as [f|] eqn:Hlast.
  - split; [|by eexists]. intros _ Hnil. by rewrite Hnil in Hlast.
  - apply last_None in Hlast. split; [by intros [? ?] | done].
Qed.

(** X1: the scan records exactly what the files say.  The forward links
    of a name are the link targets of the last file registered under it
    (a file of the same stem met earlier adds none), and the backward
    links mirror them; the keys of [notes] are the stems of the files
    outside the skipped folders; [all_notes] holds these stems and the
    link targets, and nothing else. *)
Theorem scan_vault_records (vault : list md_file) (a b : string) :
  (b ∈ dd_get (links (scan_vault vault)) a
   ↔ ∃ f, last (files_named a vault) = Some f ∧ b ∈ wiki_links f)
  ∧ (a ∈ dd_get (backlinks (scan_vault vault)) b
     ↔ ∃ f, last (files_named a vault) = Some f ∧ b ∈ wiki_links f)
  ∧ (a ∈ (notes (scan_vault vault)).*1
     ↔ ∃ f, f ∈ vault ∧ skipped f = false ∧ stem f = a)
  ∧ (a ∈ all_notes (scan_vault vault)
     ↔ a ∈ (notes (scan_vault vault)).*1
       ∨ ∃ c, a ∈ dd_get (links (scan_vault vault)) c).
Proof.
  pose proof (scan_vault_wf vault) as Hwf.
  split; [apply scan_vault_links|].
  split; [rewrite <- (wf_symmetric _ Hwf); apply scan_vault_links|].
  split; [apply scan_vault_note_keys|]. split.
  - intros Ha.
    destruct (scan_state_all_notes _ a (scan_vault_state vault) Ha)
      as [?|[c Hc]]; [by left|].
    right. exists c. by apply (wf_symmetric _ Hwf).
  - intros [Ha|[c Hc]].
    + by apply (wf_notes _ Hwf).
    + by apply (wf_target _ Hwf c).
Qed.

Lemma scan_vault_skip (vault : list md_file) (self : GravityIndexAnalyzer) :
  foldl register_file self (filter (λ f, skipped f = false) vault)
  = foldl register_file self vault.
Proof.
  revert self. induction vault as [|f vault IH]; intros self; [done|].
  rewrite filter_cons. simpl. destruct (skipped f) eqn:Hskip.
  - rewrite decide_False by done. rewrite IH. unfold register_file.
    by rewrite Hskip.
  - rewrite decide_True by done. simpl. by rewrite IH.
Qed.

Lemma scan_vault_empty_iff (vault : list md_file) :
  all_notes (scan_vault vault) = ∅ ↔ ∀ f, f ∈ vault → skipped f = true.
Proof.
  pose proof (scan_vault_wf vault) as Hwf. split.
  - intros He f Hf. destruct (skipped f) eqn:Hskip; [done|].
    assert (stem f ∈ all_notes (scan_vault vault)) as Hin.
    { apply (wf_notes _ Hwf), scan_vault_note_keys. by exists f. }
    rewrite He in Hin. by apply not_elem_of_empty in Hin.
  - intros Hall. apply leibniz_equiv, elem_of_equiv_empty. intros x Hx.
    destruct (scan_state_all_notes _ x (scan_vault_state vault) Hx)
      as [Hk|[a Ha]].
    + apply scan_vault_note_keys in Hk as (f & Hf & Hskip & _).
      rewrite (Hall f Hf) in Hskip. done.
    + apply (wf_symmetric _ Hwf), (wf_source _ Hwf) in Ha.
      apply scan_vault_note_keys in Ha as (f & Hf & Hskip & _).
      rewrite (Hall f Hf) in Hskip. done.
Qed.

(** X2: files under a skipped folder leave no trace: the scan of a vault
    is the scan of its other files; and the scan ends with no note at all
    (the case in which [main] reports that no markdown file was found)
    exactly when every file is under a skipped folder. *)
Theorem scan_vault_skipped (vault : list md_file) :
  scan_vault (filter (λ f, skipped f = false) vault) = scan_vault vault
  ∧ (all_notes (scan_vault vault) = ∅ ↔ ∀ f, f ∈ vault → skipped f = true).
Proof.
  split.
  - unfold scan_vault. by rewrite scan_vault_skip.
  - apply scan_vault_empty_iff.
Qed.

(** ** PageRank: conservation and bounds *)

Section rank_bounds.
Variable self : GravityIndexAnalyzer.
Hypothesis Hwf : graph_wf self.
Hypothesis Hne : all_notes self ≠ ∅.

Lemma mass_conserved (iterations : nat) (damping : R) :
  (∀ m, m ∈ all_notes self → (0 < outdegree self m)%nat) →
  mass (spec_pagerank self iterations damping) = 1.
Proof.
  intros Hout. induction iterations as [|k IH].
  - by apply mass_spec_init.
  - change (spec_pagerank self (S k) damping)
      with (spec_round self damping (spec_pagerank self k damping)).
    rewrite mass_spec_round by done.
    rewrite (sumR_fmap_ext _ (λ m, default 0 (spec_pagerank self k damping !! m))).
    + rewrite <- mass_dom by (done || apply dom_spec_pagerank). rewrite IH. lra.
    + intros m Hm%elem_of_elements. unfold kept.
      rewrite decide_False; [done|]. specialize (Hout m Hm). lia.
Qed.




Lemma lookup_spec_pagerank_S (k : nat) (damping : R) (n : string) :
  n ∈ all_notes self →
  spec_pagerank self (S k) damping !! n
  = Some (spec_rank self damping (spec_pagerank self k damping) n).
Proof.
  intros Hn.
  change (spec_pagerank self (S k) damping)
    with (spec_round self damping (spec_pagerank self k damping)).
  unfold spec_round. by rewrite lookup_map_of_fun, decide_True.
Qed.

Lemma spec_rank_lower (damping : R) (rank : gmap string R) (n : string) :
  0 <= damping → rank_nonneg rank →
  (1 - damping) / INR (size (all_notes self)) <= spec_rank self damping rank n.
Proof.
  intros Hd Hr. unfold spec_rank.
  assert (0 <= sumR (spec_share self rank
                       <$> elements (dd_get (backlinks self) n))).
  { apply sumR_fmap_nonneg. intros m _. by apply spec_share_nonneg. }
  nra.
Qed.

End rank_bounds.

(** X3: when every note has at least one outgoing link, no mass leaks:
    the ranks returned by [calculate_pagerank] sum to exactly 1, after any
    number of rounds and for any damping factor. *)
Theorem pagerank_mass_conserved (iter : set_order)
    (self : GravityIndexAnalyzer) (iterations : nat) (damping : R) :
  scan_state self → all_notes self ≠ ∅ →
  (∀ m, m ∈ all_notes self → (0 < outdegree self m)%nat) →
  ∃ pagerank,
    calculate_pagerank iter self iterations damping = Some pagerank
    ∧ mass pagerank = 1.
Proof.
  intros Hwf%scan_state_wf Hne Hout.
  exists (spec_pagerank self iterations damping). split.
  - by apply calculate_pagerank_spec.
  - by apply mass_conserved.
Qed.

Lemma mutual_no_sink (m : string) :
  m ∈ all_notes (scan_vault mutual_vault) →
  (0 < outdegree (scan_vault mutual_vault) m)%nat.
Proof.
  intros Hm.
  assert (all_notes (scan_vault mutual_vault) = {["A"; "B"]}%string) as He
    by (vm_compute; reflexivity).
  rewrite He in Hm. apply elem_of_union in Hm as [Hm|Hm];
    apply elem_of_singleton in Hm; subst m; vm_compute; lia.
Qed.

Lemma pagerank_mass_conserved_witness :
  (scan_state (scan_vault mutual_vault)
   ∧ all_notes (scan_vault mutual_vault) ≠ ∅
   ∧ ∀ m, m ∈ all_notes (scan_vault mutual_vault) →
          (0 < outdegree (scan_vault mutual_vault) m)%nat)
  ∧ ∃ pagerank,
      calculate_pagerank elements_order (scan_vault mutual_vault)
        default_iterations default_damping = Some pagerank
      ∧ mass pagerank = 1.
Proof.
  pose proof (scan_vault_state mutual_vault) as H1.
  pose proof all_notes_mutual_vault as H2.
  pose proof mutual_no_sink as H3.
  split; [done|].
  apply (pagerank_mass_conserved elements_order (scan_vault mutual_vault)
           default_iterations default_damping H1 H2 H3).
Defined.



(** ** The percentile as an anchor *)

Lemma Rle_Transitive : Transitive Rle.
Proof. intros x y z. apply Rle_trans. Qed.

Lemma Rle_AntiSymm : AntiSymm eq Rle.
Proof. intros x y. apply Rle_antisym. Qed.

Lemma sorted_positive_unique (values values' : list R) :
  values ≡ₚ values' →
  py_sorted (λ a b, bool_decide (a < b)) (filter (λ v, 0 < v) values)
  = py_sorted (λ a b, bool_decide (a < b)) (filter (λ v, 0 < v) values').
Proof.
  intros Hp.
  apply (@Sorted_unique R Rle Rle_Transitive Rle_AntiSymm);
    [apply sorted_positive_Sorted..|].
  rewrite !sorted_positive_perm. by rewrite Hp.
Qed.

Lemma length_filter_le {A : Type} (P : A → Prop) `{∀ x, Decision (P x)}
    (l : list A) :
  (length (filter P l) ≤ length l)%nat.
Proof.
  induction l as [|x l IH]; [done|]. rewrite filter_cons.
  destruct (decide (P x)); simpl; lia.
Qed.

Lemma sorted_above_count (l : list R) (i : nat) (v : R) :
  StronglySorted Rle l → l !! i = Some v →
  (length (filter (λ x, (v < x)%R) l) ≤ length l - S i)%nat.
Proof.
  intros Hs. revert i. induction Hs as [|x l Hs IH Hall]; intros i Hi.
  - done.
  - rewrite filter_cons. destruct i as [|i]; simpl in Hi.
    + injection Hi as ->. rewrite decide_False by lra. simpl.
      pose proof (length_filter_le (λ x, v < x) l). lia.
    + assert (x <= v) as Hxv.
      { apply list_elem_of_lookup_2 in Hi.
        by apply (proj1 (Forall_forall _ _) Hall). }
      rewrite decide_False by lra. simpl. by apply IH.
Qed.

Lemma filter_above_positive (v : R) (values : list R) :
  0 < v →
  filter (λ x, v < x) (filter (λ x, 0 < x) values)
  = filter (λ x, v < x) values.
Proof.
  intros Hv. induction values as [|x values IH]; [done|].
  rewrite !filter_cons. destruct (decide (0 < x)) as [Hx|Hx].
  - rewrite filter_cons. destruct (decide (v < x)); by rewrite IH.
  - rewrite (decide_False (P := v < x)) by lra. done.
Qed.

Lemma int_095_small (n : nat) : (n ≤ 20 → n - 1 - int_095 n = 0)%nat.
Proof.
  unfold int_095. intros Hn.
  pose proof (Nat.div_mod (95 * n) 100 ltac:(lia)).
  pose proof (Nat.mod_upper_bound (95 * n) 100 ltac:(lia)). lia.
Qed.

Lemma p95_value_above_count (values : list R) :
  (length (filter (λ x, (p95_value values < x)%R) values)
   ≤ length (filter (λ v, (0 < v)%R) values) - 1
     - int_095 (length (filter (λ v, (0 < v)%R) values)))%nat.
Proof.
  pose proof (get_95th_percentile_value values) as Hv.
  pose proof (p95_value_pos values) as Hpos.
  unfold get_95th_percentile in Hv.
  pose proof (sorted_positive_perm values) as Hp.
  pose proof (sorted_positive_Sorted values) as Hs.
  set (sorted_vals := py_sorted _ _) in *.
  rewrite <- (filter_above_positive _ _ Hpos), <- Hp.
  case_decide as Hnil.
  - rewrite Hnil. simpl. lia.
  - apply (@Sorted_StronglySorted _ Rle Rle_Transitive) in Hs.
    pose proof (sorted_above_count _ _ _ Hs Hv) as Hcount.
    assert (length sorted_vals ≠ 0%nat) as Hlen
      by (by destruct sorted_vals).
    unfold int_095 in *.
    pose proof (Nat.div_mod (95 * length sorted_vals) 100 ltac:(lia)).
    pose proof (Nat.mod_upper_bound (95 * length sorted_vals) 100 ltac:(lia)).
    lia.
Qed.

(** X5: the value returned by [get_95th_percentile] is an anchor for the
    top twentieth: with [n] positive values, at most
    [n - 1 - floor(0.95 n)] of the values exceed it; with at most 20
    positive values none does, so it is their maximum; and the clamp of
    the index to [n - 1] never changes the index. *)
Theorem percentile_anchor (values : list R) :
  let n := length (filter (λ v, 0 < v) values) in
  ∃ p95,
    get_95th_percentile values = Some p95
    ∧ (length (filter (λ x, (p95 < x)%R) values) ≤ n - 1 - int_095 n)%nat
    ∧ ((n ≤ 20)%nat → ∀ x, x ∈ values → x <= p95)
    ∧ (int_095 n `min` (n - 1))%nat = int_095 n.
Proof.
  intros n. exists (p95_value values).
  split; [apply get_95th_percentile_value|].
  split; [apply p95_value_above_count|]. split.
  - intros Hn x Hx. apply Rnot_lt_le. intros Hlt.
    pose proof (p95_value_above_count values) as Hcount. fold n in Hcount.
    rewrite (int_095_small n Hn) in Hcount.
    assert (x ∈ filter (λ x, p95_value values < x) values) as Hin
      by (by apply list_elem_of_filter).
    destruct (filter (λ x, p95_value values < x) values);
      [by apply not_elem_of_nil in Hin|].
    simpl in Hcount. lia.
  - unfold int_095.
    pose proof (Nat.div_mod (95 * n) 100 ltac:(lia)).
    pose proof (Nat.mod_upper_bound (95 * n) 100 ltac:(lia)). lia.
Qed.

(** X6: [get_95th_percentile] depends on the values only, not on their
    order: two sequences with the same elements give the same result. *)
Theorem percentile_order_independent (values values' : list R) :
  values ≡ₚ values' →
  get_95th_percentile values = get_95th_percentile values'.
Proof.
  intros Hp. rewrite !get_95th_percentile_value. unfold p95_value.
  by rewrite (sorted_positive_unique values values' Hp).
Qed.

Lemma percentile_order_independent_witness :
  [3; 1; 2] ≡ₚ [1; 2; 3]
  ∧ get_95th_percentile [3; 1; 2] = get_95th_percentile [1; 2; 3].
Proof.
  assert ([3; 1; 2] ≡ₚ [1; 2; 3]) as Hp.
  { change [3; 1; 2] with ([3] ++ [1; 2]). change [1; 2; 3] with ([1; 2] ++ [3]).
    apply Permutation_app_comm. }
  split; [exact Hp|].
  apply (percentile_order_independent [3; 1; 2] [1; 2; 3] Hp).
Defined.

(** ** The records of the index *)

Lemma ln_nonneg (x : R) : 1 <= x → 0 <= ln x.
Proof.
  intros [Hlt|<-]; [|rewrite ln_1; lra].
  left. rewrite <- ln_1. apply ln_increasing; lra.
Qed.

Lemma ln_pos (x : R) : 1 < x → 0 < ln x.
Proof. intros Hlt. rewrite <- ln_1. apply ln_increasing; lra. Qed.

Lemma spec_efficiency_bounds (incoming bidirectional : nat) :
  (bidirectional ≤ incoming)%nat →
  0 <= spec_efficiency incoming bidirectional <= 1.
Proof.
  intros Hle. unfold spec_efficiency. case_decide as Hpos; [|lra].
  replace (incoming `max` 1)%nat with incoming by lia.
  assert (0 < INR incoming) by (apply lt_0_INR; lia).
  pose proof (pos_INR bidirectional). apply le_INR in Hle.
  assert (/ INR incoming * INR incoming = 1) by (apply Rinv_l; lra).
  assert (0 < / INR incoming) by (apply Rinv_0_lt_compat; lra).
  unfold Rdiv. split; nra.
Qed.

Lemma spec_integration_index_lower (bidirectional outgoing : nat)
    (efficiency : R) :
  0.1 <= spec_integration_index bidirectional outgoing efficiency.
Proof.
  unfold spec_integration_index.
  replace 0.1 with (sqrt (0.1 * 0.1)) at 1 by (apply sqrt_square; lra).
  apply sqrt_le_1_alt.
  assert (1 <= INR (bidirectional `max` 1)).
  { replace 1 with (INR 1) by done. apply le_INR. lia. }
  assert (1 <= INR (outgoing `max` 1)).
  { replace 1 with (INR 1) by done. apply le_INR. lia. }
  pose proof (Rmax_r efficiency 0.01).
  assert (1 <= INR (bidirectional `max` 1) * INR (outgoing `max` 1)) by nra.
  set (p := INR (bidirectional `max` 1) * INR (outgoing `max` 1)) in *.
  set (c := Rmax efficiency 0.01) in *. nra.
Qed.

Section record_facts.
Variables (iter : set_order) (self : GravityIndexAnalyzer).

Lemma bidirectional_le note :
  (bidirectional_of self note ≤ incoming_of self note
   ∧ bidirectional_of self note ≤ outgoing_of self note)%nat.
Proof.
  unfold bidirectional_of, incoming_of, outgoing_of.
  split; apply subseteq_size; set_solver.
Qed.

Lemma elem_of_gravity_output note r :
  (note, r) ∈ sort_by_total (spec_scores iter self)
  ↔ note ∈ all_notes self ∧ qualifies self note
    ∧ r = score (spec_multipliers (spec_all_data iter self))
                (spec_data self
                   (spec_pagerank self default_iterations default_damping)
                   note).
Proof. rewrite sort_by_total_perm. apply elem_of_spec_scores. Qed.

Lemma default_rank_pos note :
  note ∈ all_notes self →
  0 < default 0
        (spec_pagerank self default_iterations default_damping !! note).
Proof.
  intros Hn. assert (all_notes self ≠ ∅) as Hne by set_solver.
  unfold default_iterations. change 50%nat with (S 49).
  rewrite lookup_spec_pagerank_S by done. simpl.
  pose proof (spec_rank_lower self default_damping
                (spec_pagerank self 49 default_damping) note) as Hlow.
  unfold default_damping in *.
  assert (0 < (1 - 0.85) / INR (size (all_notes self))).
  { apply Rdiv_lt_0_compat; [lra|].
    pose proof (pos_INR (size (all_notes self))).
    pose proof (INR_size_nonzero (all_notes self) Hne). lra. }
  assert (0.15 = 1 - 0.85) as Heq by lra.
  specialize (Hlow ltac:(lra)
                (spec_pagerank_nonneg self Hne 49 0.85 ltac:(lra))).
  lra.
Qed.

Lemma spec_multipliers_pos (all_data : list note_data) :
  0 < authority_multiplier (spec_multipliers all_data)
  ∧ 0 < curation_multiplier (spec_multipliers all_data)
  ∧ 0 < conversation_multiplier (spec_multipliers all_data)
  ∧ 0 < quality_multiplier (spec_multipliers all_data)
  ∧ 0 < network_multiplier (spec_multipliers all_data)
  ∧ 0 < integration_multiplier (spec_multipliers all_data).
Proof.
  simpl. repeat split; (apply Rdiv_lt_0_compat; [lra | apply p95_value_pos]).
Qed.
End record_facts.

(** X7: in every record of the result the bidirectional count is at most
    the incoming and at most the outgoing count, the bidirectional
    efficiency lies in [0, 1], and the integration index is at least
    0.1. *)
Theorem record_ranges (iter : set_order) (self : GravityIndexAnalyzer) :
  ∃ out,
    calculate_gravity_index iter self = Some out
    ∧ ∀ note r, (note, r) ∈ out →
        (bidirectional r ≤ incoming r)%nat
        ∧ (bidirectional r ≤ outgoing r)%nat
        ∧ 0 <= bidirectional_efficiency r <= 1
        ∧ 0.1 <= integration_index r.
Proof.
  eexists. split; [apply calculate_gravity_index_spec|].
  intros note r (_ & _ & ->)%elem_of_gravity_output. simpl.
  destruct (bidirectional_le self note) as [Hin Hout].
  split; [done|]. split; [done|].
  split; [by apply spec_efficiency_bounds|].
  apply spec_integration_index_lower.
Qed.

(** X8: every record has six components that are not negative, a network
    component that is positive, and hence a positive [total]. *)
Theorem record_positive (iter : set_order) (self : GravityIndexAnalyzer) :
  ∃ out,
    calculate_gravity_index iter self = Some out
    ∧ ∀ note r, (note, r) ∈ out →
        0 <= authority_component r ∧ 0 <= curation_component r
        ∧ 0 <= conversation_component r ∧ 0 <= quality_component r
        ∧ 0 < network_component r ∧ 0 <= integration_component r
        ∧ 0 < total r.
Proof.
  eexists. split; [apply calculate_gravity_index_spec|].
  intros note r (Hn & _ & ->)%elem_of_gravity_output.
  destruct (spec_multipliers_pos (spec_all_data iter self))
    as (Ha & Hc & Hv & Hq & Hw & Hi).
  destruct (bidirectional_le self note) as [Hbi _].
  pose proof (spec_efficiency_bounds _ _ Hbi) as [Heff _].
  pose proof (default_rank_pos self note Hn) as Hpr.
  simpl. simpl in Ha, Hc, Hv, Hq, Hw, Hi.
  set (ma := 25 / p95_value (d_incoming_log <$> _)) in *.
  set (mc := 20 / p95_value (d_outgoing_log <$> _)) in *.
  set (mv := 20 / p95_value ((λ d, INR (d_bidirectional d)) <$> _)) in *.
  set (mq := 15 / p95_value (d_bidirectional_efficiency <$> _)) in *.
  set (mw := 10 / p95_value (d_pagerank_log <$> _)) in *.
  set (mi := 10 / p95_value (d_integration_index <$> _)) in *.
  assert (0 <= ln (INR (incoming_of self note) + 1)).
  { apply ln_nonneg. pose proof (pos_INR (incoming_of self note)). lra. }
  assert (0 <= ln (INR (outgoing_of self note) + 1)).
  { apply ln_nonneg. pose proof (pos_INR (outgoing_of self note)). lra. }
  assert (0 < ln (default 0
                    (spec_pagerank self default_iterations default_damping
                       !! note) * 10000 + 1)).
  { apply ln_pos. lra. }
  pose proof (pos_INR (bidirectional_of self note)).
  pose proof (spec_integration_index_lower (bidirectional_of self note)
                (outgoing_of self note)
                (spec_efficiency (incoming_of self note)
                   (bidirectional_of self note))).
  assert (0 < spec_scale_bonus (incoming_of self note))
    by (unfold spec_scale_bonus; case_decide; lra).
  assert (0 < spec_curation_bonus (outgoing_of self note))
    by (unfold spec_curation_bonus; case_decide; lra).
  assert (0 < spec_conversation_bonus (bidirectional_of self note))
    by (unfold spec_conversation_bonus; case_decide; lra).
  assert (0 < spec_quality_bonus
                (spec_efficiency (incoming_of self note)
                   (bidirectional_of self note)))
    by (unfold spec_quality_bonus; case_decide; lra).
  assert (0 <= ln (INR (incoming_of self note) + 1)
               * spec_scale_bonus (incoming_of self note)
               * ma) by (apply Rmult_le_pos; [apply Rmult_le_pos|]; lra).
  assert (0 <= ln (INR (outgoing_of self note) + 1)
               * spec_curation_bonus (outgoing_of self note)
               * mc) by (apply Rmult_le_pos; [apply Rmult_le_pos|]; lra).
  assert (0 <= INR (bidirectional_of self note)
               * spec_conversation_bonus (bidirectional_of self note)
               * mv)
    by (apply Rmult_le_pos; [apply Rmult_le_pos|]; lra).
  assert (0 <= spec_efficiency (incoming_of self note)
                 (bidirectional_of self note)
               * spec_quality_bonus
                   (spec_efficiency (incoming_of self note)
                      (bidirectional_of self note))
               * mq) by (apply Rmult_le_pos; [apply Rmult_le_pos|]; lra).
  assert (0 < ln (default 0
                    (spec_pagerank self default_iterations default_damping
                       !! note) * 10000 + 1)
              * mw) by (apply Rmult_lt_0_compat; lra).
  assert (0 <= spec_integration_index (bidirectional_of self note)
                 (outgoing_of self note)
                 (spec_efficiency (incoming_of self note)
                    (bidirectional_of self note))
               * mi)
    by (apply Rmult_le_pos; lra).
  repeat split; lra.
Qed.

Lemma outgoing_of_dangling (self : GravityIndexAnalyzer) (note : string) :
  graph_wf self → note ∉ (notes self).*1 → outgoing_of self note = 0%nat.
Proof.
  intros Hwf Hnot. unfold outgoing_of.
  destruct (size (dd_get (links self) note)) eqn:Hsz; [done|].
  assert (0 < size (dd_get (links self) note))%nat as Hpos by lia.
  apply size_pos_elem_of in Hpos as [b Hb].
  destruct Hnot. by apply (wf_source _ Hwf note b).
Qed.

(** X9: a record is marked as existing exactly when a scanned file has
    the note's name; the record of a name without a file has no outgoing
    link and at least one incoming link, so its bidirectional count, its
    efficiency and its curation, conversation and quality components are
    all 0. *)
Theorem dangling_records (iter : set_order) (vault : list md_file) :
  ∃ out,
    calculate_gravity_index iter (scan_vault vault) = Some out
    ∧ ∀ note r, (note, r) ∈ out →
        (exists_ r = true
         ↔ ∃ f, f ∈ vault ∧ skipped f = false ∧ stem f = note)
        ∧ (exists_ r = false →
           outgoing r = 0%nat ∧ (1 ≤ incoming r)%nat
           ∧ bidirectional r = 0%nat ∧ bidirectional_efficiency r = 0
           ∧ curation_component r = 0 ∧ conversation_component r = 0
           ∧ quality_component r = 0).
Proof.
  eexists. split; [apply calculate_gravity_index_spec|].
  intros note r (Hn & Hq & ->)%elem_of_gravity_output. simpl. split.
  - rewrite bool_decide_eq_true. apply scan_vault_note_keys.
  - intros Hnot%bool_decide_eq_false.
    pose proof (outgoing_of_dangling _ note (scan_vault_wf vault) Hnot) as Ho.
    destruct (bidirectional_le (scan_vault vault) note) as [_ Hbi].
    rewrite Ho in Hbi.
    assert (bidirectional_of (scan_vault vault) note = 0%nat) as Hb by lia.
    assert (1 ≤ incoming_of (scan_vault vault) note)%nat as Hi
      by (unfold qualifies in Hq; lia).
    rewrite Ho, Hb. unfold spec_efficiency.
    rewrite decide_True by lia. simpl INR.
    replace (0 + 1) with 1 by lra. rewrite ln_1.
    repeat split; try done; unfold Rdiv; lra.
Qed.

Lemma total_order_Transitive :
  Transitive (λ x y : string * gravity_score, total y.2 <= total x.2).
Proof. intros x y z Hxy Hyz. lra. Qed.

Lemma sorted_head_max (out : list (string * gravity_score))
    (top : string * gravity_score) :
  Sorted (λ x y, total y.2 <= total x.2) out →
  head out = Some top →
  ∀ item, item ∈ out → total item.2 <= total top.2.
Proof.
  intros Hs Hhd item Hin.
  apply (@Sorted_StronglySorted _ _ total_order_Transitive) in Hs.
  destruct out as [|x out]; [done|]. injection Hhd as ->.
  apply StronglySorted_inv in Hs as [_ Hall].
  apply elem_of_cons in Hin as [->|Hin]; [lra|].
  by apply (proj1 (Forall_forall _ _) Hall).
Qed.

(** X10: the first record of the result, which [main] prints as the top
    note and the report as the top score, has the largest total of all
    records. *)
Theorem top_note_is_maximal (iter : set_order) (self : GravityIndexAnalyzer) :
  ∃ out,
    calculate_gravity_index iter self = Some out
    ∧ ∀ top_note top,
        head out = Some (top_note, top) →
        ∀ note r, (note, r) ∈ out → total r <= total top.
Proof.
  eexists. split; [apply calculate_gravity_index_spec|].
  intros top_note top Hhd note r Hin.
  apply (sorted_head_max _ (top_note, top)
           (sort_by_total_Sorted _) Hhd (note, r) Hin).
Qed.

Lemma length_filter_fmap {A B : Type} (f : A → B) (P : B → Prop)
    (Q : A → Prop) `{∀ y, Decision (P y)} `{∀ x, Decision (Q x)}
    (l : list A) :
  (∀ x, x ∈ l → (P (f x) ↔ Q x)) →
  length (filter P (f <$> l)) = length (filter Q l).
Proof.
  induction l as [|x l IH]; intros HPQ; [done|].
  rewrite fmap_cons, !filter_cons.
  assert (length (filter P (f <$> l)) = length (filter Q l)) as Hl.
  { apply IH. intros y Hy. apply HPQ. by right. }
  specialize (HPQ x ltac:(left)).
  destruct (decide (P (f x))), (decide (Q x)); simpl; try lia; tauto.
Qed.

Lemma filter_all {A : Type} (P : A → Prop) `{∀ x, Decision (P x)}
    (l : list A) :
  (∀ x, x ∈ l → P x) → filter P l = l.
Proof.
  induction l as [|x l IH]; intros Hl; [done|].
  rewrite filter_cons_True by (apply Hl; left).
  f_equal. apply IH. intros y Hy. apply Hl. by right.
Qed.

Section anchored.
Variables (iter : set_order) (self : GravityIndexAnalyzer).

(** The integration indexes of the records are those of [all_data], in
    the order of the result. *)
Lemma record_integration_indexes :
  (λ item : string * gravity_score, integration_index item.2)
    <$> sort_by_total (spec_scores iter self)
  ≡ₚ d_integration_index <$> spec_all_data iter self.
Proof.
  rewrite sort_by_total_perm. unfold spec_scores.
  by rewrite <- list_fmap_compose.
Qed.

Lemma record_integration_p95 :
  p95_value ((λ item : string * gravity_score, integration_index item.2)
               <$> sort_by_total (spec_scores iter self))
  = p95_value (d_integration_index <$> spec_all_data iter self).
Proof.
  unfold p95_value.
  by rewrite (sorted_positive_unique _ _ record_integration_indexes).
Qed.

Lemma record_integration_pos (item : string * gravity_score) :
  item ∈ sort_by_total (spec_scores iter self) → 0 < integration_index item.2.
Proof.
  destruct item as [note r].
  intros (_ & _ & ->)%elem_of_gravity_output. simpl.
  pose proof (spec_integration_index_lower (bidirectional_of self note)
                (outgoing_of self note)
                (spec_efficiency (incoming_of self note)
                   (bidirectional_of self note))). lra.
Qed.
End anchored.

(** X11: the integration component of a record is its integration index
    times [10 / p], where [p] is the value [get_95th_percentile] gives for
    the integration indexes of the records.  Every index is positive, [p]
    is the index of one of the records, among [n] records at most
    [n - 1 - floor(0.95 n)] have an index above [p], and with at most 20
    records none has: [p] is then the largest integration index. *)
Theorem integration_anchor (iter : set_order) (self : GravityIndexAnalyzer) :
  ∃ out p,
    calculate_gravity_index iter self = Some out
    ∧ get_95th_percentile ((λ item, integration_index item.2) <$> out)
      = Some p
    ∧ 0 < p
    ∧ (∀ note r, (note, r) ∈ out →
         0 < integration_index r
         ∧ integration_component r = integration_index r * (10 / p))
    ∧ (out ≠ [] → ∃ note r, (note, r) ∈ out ∧ integration_index r = p)
    ∧ (length (filter (λ item, (p < integration_index item.2)%R) out)
       ≤ length out - 1 - int_095 (length out))%nat
    ∧ ((length out ≤ 20)%nat →
       ∀ note r, (note, r) ∈ out → integration_index r <= p).
Proof.
  set (out := sort_by_total (spec_scores iter self)).
  set (values := (λ item : string * gravity_score, integration_index item.2)
                   <$> out).
  exists out, (p95_value values).
  split; [apply calculate_gravity_index_spec|].
  split; [apply get_95th_percentile_value|].
  split; [apply p95_value_pos|].
  assert (filter (λ v, 0 < v) values = values) as Hall.
  { apply filter_all. intros v (item & -> & Hitem)%list_elem_of_fmap.
    by apply (record_integration_pos iter self). }
  assert (length (filter (λ item : string * gravity_score,
                            (p95_value values < integration_index item.2)%R)
                         out)
          ≤ length out - 1 - int_095 (length out))%nat as Hcount.
  { pose proof (p95_value_above_count values) as Hcount.
    assert (length values = length out) as Hlen by apply length_fmap.
    rewrite Hall, Hlen in Hcount.
    rewrite <- (length_filter_fmap
                  (λ item : string * gravity_score, integration_index item.2)
                  (λ v, p95_value values < v)
                  (λ item, p95_value values < integration_index item.2));
      done. }
  split.
  { intros note r Hin. split.
    - apply (record_integration_pos iter self (note, r) Hin).
    - unfold values, out. rewrite record_integration_p95.
      apply elem_of_gravity_output in Hin as (_ & _ & ->). done. }
  split.
  { intros Hne. destruct (p95_value_cases values) as [[Hin _]|[_ Hnone]].
    - apply list_elem_of_fmap in Hin as ([note r] & Hp & Hin).
      exists note, r. done.
    - destruct out as [|item out'] eqn:Hout; [done|].
      destruct (Hnone (integration_index item.2)).
      + unfold values. rewrite fmap_cons. left.
      + apply (record_integration_pos iter self). fold out.
        rewrite Hout. left. }
  split; [exact Hcount|].
  intros Hn note r Hin. apply Rnot_lt_le. intros Hlt.
  rewrite (int_095_small _ Hn) in Hcount.
  assert ((note, r) ∈ filter (λ item : string * gravity_score,
                                p95_value values < integration_index item.2)
                        out) as Hf
    by (by apply list_elem_of_filter).
  destruct (filter (λ item : string * gravity_score,
                      p95_value values < integration_index item.2) out);
    [by apply not_elem_of_nil in Hf | simpl in Hcount; lia].
Qed.

(** ** Categories *)

Lemma prefix_trans (p q s : string) :
  String.prefix p q = true → String.prefix q s = true →
  String.prefix p s = true.
Proof.
  revert q s. induction p as [|a p IH]; intros q s Hpq Hqs; [by destruct s|].
  destruct q as [|b q]; [done|]. destruct s as [|c s]; [done|].
  simpl in *. destruct (Ascii.ascii_dec a b) as [->|]; [|done].
  destruct (Ascii.ascii_dec b c) as [->|]; [|done]. eauto.
Qed.

Lemma contains_weaken (p q s : string) :
  String.prefix p q = true → contains q s = true → contains p s = true.
Proof.
  intros Hpq. induction s as [|c s IH]; intros Hq.
  - cbn [contains] in *. rewrite orb_false_r in *.
    by rewrite (prefix_trans p q "").
  - cbn [contains] in *. apply orb_true_iff in Hq as [Hq|Hq].
    + by rewrite (prefix_trans p q (String c s)).
    + rewrite IH by done. apply orb_true_r.
Qed.

Lemma contains_Project_Pro (note : string) :
  contains "Project" note = true → contains "Pro" note = true.
Proof. by apply contains_weaken. Qed.

Lemma workspace_of_Pro (note : string) :
  contains "Pro" note = true →
  any_in ["Workshop"; "Home"; "Pro"; "Hub"] note = true.
Proof.
  intros HPro. unfold any_in. cbn [existsb]. rewrite HPro.
  by rewrite !orb_true_r.
Qed.

Ltac destruct_rules :=
  repeat match goal with
    | |- context [if ?b then _ else _] => destruct b eqn:?
    | H : context [if ?b then _ else _] |- _ => destruct b eqn:?
    end.

(** X12: the word "Pro" of the workspace rule is part of "Project", and
    the workspace rule comes first: a note whose name contains "Project"
    is never classed as "Productivity", and a note classed as
    "Productivity" has "Template" or "Record" in its name. *)
Theorem project_is_shadowed (note : string) :
  (contains "Project" note = true → categorize_note note ≠ "Productivity")
  ∧ (categorize_note note = "Productivity" →
     contains "Template" note = true ∨ contains "Record" note = true).
Proof.
  split.
  - intros HPro%contains_Project_Pro%workspace_of_Pro.
    unfold categorize_note. rewrite HPro. destruct_rules; discriminate.
  - unfold categorize_note. intros Hcat.
    destruct (any_in ["Workshop"; "Home"; "Pro"; "Hub"] note) eqn:Hw;
      [destruct_rules; discriminate|].
    destruct (any_in ["Project"; "Template"; "Record"] note) eqn:Hp;
      [|destruct_rules; discriminate].
    unfold any_in in Hp. cbn [existsb] in Hp.
    destruct (contains "Project" note) eqn:HProject.
    + apply contains_Project_Pro, workspace_of_Pro in HProject. congruence.
    + destruct (contains "Template" note); [by left|].
      destruct (contains "Record" note); [by right | done].
Qed.

Lemma project_is_shadowed_witness :
  contains "Project" "Project Ideas" = true
  ∧ categorize_note "Project Ideas" ≠ "Productivity".
Proof.
  assert (contains "Project" "Project Ideas" = true) as H1 by reflexivity.
  split; [exact H1|].
  apply (proj1 (project_is_shadowed "Project Ideas") H1).
Defined.

(** ** Descriptions *)

Lemma string_app_cons (x : Ascii.ascii) (a b : string) :
  String x a +:+ b = String x (a +:+ b).
Proof. reflexivity. Qed.

Lemma string_app_assoc (a b c : string) : (a +:+ b) +:+ c = a +:+ (b +:+ c).
Proof.
  induction a as [|x a IH]; [done|]. by rewrite !string_app_cons, IH.
Qed.

Lemma string_app_empty_r (a : string) : a +:+ "" = a.
Proof. induction a as [|x a IH]; [done|]. by rewrite string_app_cons, IH. Qed.

Lemma strengths_nil (data : gravity_score) :
  strengths_of data = []
  ↔ (incoming data < 20)%nat ∧ (outgoing data < 15)%nat
    ∧ (bidirectional data < 10)%nat ∧ bidirectional_efficiency data < 0.25.
Proof.
  unfold strengths_of. rewrite !app_nil. split.
  - intros (H1 & H2 & H3 & H4). repeat case_decide; try done.
    repeat split; (lia || lra).
  - intros (H1 & H2 & H3 & H4).
    repeat split; repeat case_decide; (done || lia || lra).
Qed.

Lemma gaps_strengths (data : gravity_score) :
  gaps_of data ≠ [] → strengths_of data ≠ [].
Proof.
  intros Hgap Hnil. apply strengths_nil in Hnil as (H1 & H2 & H3 & H4).
  apply Hgap. unfold gaps_of. repeat case_decide; (done || lia).
Qed.

Lemma gaps_cases (data : gravity_score) :
  gaps_of data = [] ∨ ∃ gap, gaps_of data = [gap].
Proof. unfold gaps_of. repeat case_decide; eauto. Qed.

(** Every strength is one of ten labels, none of which begins with the
    letter b. *)
Lemma strength_labels (data : gravity_score) (s tail : string) :
  s ∈ strengths_of data → s +:+ tail ≠ "balanced integrator".
Proof.
  unfold strengths_of. rewrite !elem_of_app.
  intros [Hs|[Hs|[Hs|Hs]]]; repeat case_decide;
    try (by apply not_elem_of_nil in Hs);
    apply list_elem_of_singleton in Hs as ->;
    rewrite string_app_cons; discriminate.
Qed.

(** The text begins with the first strength, when there is one. *)
Lemma description_head (data : gravity_score) (s0 : string)
    (rest : list string) :
  strengths_of data = s0 :: rest →
  ∃ tail, get_bonus_description data = Some (s0 +:+ tail).
Proof.
  intros Hs. unfold get_bonus_description. rewrite Hs.
  rewrite (bool_decide_eq_true_2 (s0 :: rest ≠ [])) by done.
  destruct (gaps_cases data) as [->|[gap ->]]; simpl.
  - case_decide as Hlen.
    + destruct rest as [|s1 rest]; [simpl in Hlen; lia|]. simpl. by eexists.
    + exists "". by rewrite string_app_empty_r.
  - destruct rest as [|s1 rest]; simpl.
    + by eexists.
    + rewrite !string_app_assoc. by eexists.
Qed.

(** X13: [_get_bonus_description] never raises, and it never drops a gap:
    whenever a gap is found, some strength is found too, so the text is
    the first one or two strengths followed by "; " and the gap. *)
Theorem description_reports_gap (data : gravity_score) :
  ∃ text,
    get_bonus_description data = Some text
    ∧ ∀ gap, gap ∈ gaps_of data →
        strengths_of data ≠ []
        ∧ text = py_join ", " (take 2 (strengths_of data)) +:+ "; " +:+ gap.
Proof.
  unfold get_bonus_description.
  destruct (gaps_cases data) as [Hg|[gap Hg]].
  - rewrite Hg, andb_false_r.
    assert (∀ gap : string, gap ∈ [] → False) as Hno
      by (intros ? ?%not_elem_of_nil; done).
    destruct (strengths_of data) as [|s0 [|s1 rest]] eqn:Hs; simpl.
    + repeat case_decide; eexists; (split; [done|]); intros ? ?%Hno; done.
    + eexists. split; [done|]. intros ? ?%Hno. done.
    + eexists. split; [done|]. intros ? ?%Hno. done.
  - assert (strengths_of data ≠ []) as Hs
      by (apply gaps_strengths; by rewrite Hg).
    rewrite Hg. rewrite (bool_decide_eq_true_2 (strengths_of data ≠ [])) by done.
    rewrite (bool_decide_eq_true_2 ([gap] ≠ [])) by done. simpl.
    eexists. split; [done|].
    intros gap' ->%list_elem_of_singleton. done.
Qed.

Lemma no_strength_low_integration (bidirectional outgoing : nat)
    (efficiency : R) :
  (bidirectional < 10)%nat → (outgoing < 15)%nat → efficiency < 0.25 →
  spec_integration_index bidirectional outgoing efficiency <= 10.
Proof.
  intros Hb Ho He. unfold spec_integration_index.
  apply Rle_trans with (sqrt (10 * 10));
    [apply sqrt_le_1_alt | rewrite sqrt_square; lra].
  assert (INR (bidirectional `max` 1) <= 9).
  { replace 9 with (INR 9) by (rewrite INR_IZR_INZ; reflexivity).
    apply le_INR. lia. }
  assert (INR (outgoing `max` 1) <= 14).
  { replace 14 with (INR 14) by (rewrite INR_IZR_INZ; reflexivity).
    apply le_INR. lia. }
  assert (1 <= INR (bidirectional `max` 1)).
  { replace 1 with (INR 1) by done. apply le_INR. lia. }
  assert (1 <= INR (outgoing `max` 1)).
  { replace 1 with (INR 1) by done. apply le_INR. lia. }
  assert (0 < Rmax efficiency 0.01 <= 0.25) as [? ?].
  { unfold Rmax. destruct (Rle_dec efficiency 0.01); lra. }
  assert (INR (bidirectional `max` 1) * INR (outgoing `max` 1) <= 9 * 14)
    by nra.
  set (p := INR (bidirectional `max` 1) * INR (outgoing `max` 1)) in *.
  set (c := Rmax efficiency 0.01) in *. nra.
Qed.

(** X14: for the records of the index the branch "balanced integrator" of
    [_get_bonus_description] is never taken: a record with no strength
    has counts so small that its integration index is at most 10, and is
    described as an "emerging connector"; every other description begins
    with a strength. *)
Theorem no_balanced_integrator (iter : set_order)
    (self : GravityIndexAnalyzer) :
  ∃ out,
    calculate_gravity_index iter self = Some out
    ∧ ∀ note r, (note, r) ∈ out →
        ∃ text,
          get_bonus_description r = Some text
          ∧ text ≠ "balanced integrator"
          ∧ (strengths_of r = [] → text = "emerging connector")
          ∧ (∀ s0 rest, strengths_of r = s0 :: rest →
               ∃ tail, text = s0 +:+ tail).
Proof.
  eexists. split; [apply calculate_gravity_index_spec|].
  intros note r (_ & _ & Hr)%elem_of_gravity_output.
  destruct (strengths_of r) as [|s0 rest] eqn:Hs.
  - exists "emerging connector".
    pose proof Hs as (H1 & H2 & H3 & H4)%strengths_nil.
    assert (integration_index r <= 10) as Hint.
    { subst r. simpl in *. by apply no_strength_low_integration. }
    split; [|done]. unfold get_bonus_description. rewrite Hs. simpl.
    by rewrite decide_False by lra.
  - destruct (description_head r s0 rest Hs) as [tail Htext].
    exists (s0 +:+ tail). split; [done|].
    split; [|split; [done|]].
    + apply (strength_labels r). rewrite Hs. left.
    + intros s0' rest' [= <- <-]. by exists tail.
Qed.

(** ** The values of the report *)

Lemma get_bonus_description_total (data : gravity_score) :
  is_Some (get_bonus_description data).
Proof.
  unfold get_bonus_description.
  destruct (gaps_cases data) as [->|[gap ->]];
    destruct (strengths_of data) as [|s0 [|s1 rest]]; simpl;
    repeat case_decide; by eexists.
Qed.

Lemma py_div_nonzero (a b : R) : b ≠ 0 → py_div a b = Some (a / b).
Proof. intros Hb. unfold py_div. by rewrite decide_False. Qed.

Lemma mapM_total {A B : Type} (f : A → option B) (g : A → B) (l : list A) :
  (∀ x, x ∈ l → f x = Some (g x)) → mapM f l = Some (g <$> l).
Proof.
  intros Hf. apply mapM_Some_2.
  induction l as [|x l IH]; csimpl; constructor.
  - apply Hf. left.
  - apply IH. intros y Hy. apply Hf. by right.
Qed.

Lemma dd_append_cons (k' : string) (l : list R) (d : list (string * list R))
    (k : string) (v : R) :
  dd_append ((k', l) :: d) k v
  = if decide (k = k') then (k, l ++ [v]) :: d
    else (k', l) :: dd_append d k v.
Proof. unfold dd_append. simpl. by destruct (decide (k = k')). Qed.

Lemma rows_total_dd_append (d : list (string * list R)) (k : string) (v : R) :
  rows_total (dd_append d k v) = S (rows_total d).
Proof.
  induction d as [|[k' l] d IH].
  - done.
  - rewrite dd_append_cons. destruct (decide (k = k')) as [->|Hne].
    + unfold rows_total. csimpl. rewrite length_app. simpl. lia.
    + unfold rows_total in *. csimpl. rewrite IH. lia.
Qed.

Lemma nonempty_dd_append (d : list (string * list R)) (k : string) (v : R) :
  Forall (λ row, row.2 ≠ []) d →
  Forall (λ row, row.2 ≠ []) (dd_append d k v).
Proof.
  induction d as [|[k' l] d IH]; intros Hd.
  - repeat constructor. done.
  - rewrite dd_append_cons. apply Forall_cons in Hd as [Hl Hd].
    destruct (decide (k = k')) as [->|Hne]; constructor; auto.
    simpl. by destruct l.
Qed.

Lemma categories_invariant (shown : list (string * gravity_score))
    (acc : list (string * list R)) :
  NoDup acc.*1 → Forall (λ row, row.2 ≠ []) acc →
  let categories :=
    foldl (λ categories item,
             dd_append categories (category item.2) (total item.2))
          acc shown in
  NoDup categories.*1
  ∧ Forall (λ row, row.2 ≠ []) categories
  ∧ rows_total categories = (rows_total acc + length shown)%nat.
Proof.
  revert acc. induction shown as [|item shown IH]; intros acc Hnd Hne; simpl.
  - repeat split; [done..|lia].
  - destruct (IH (dd_append acc (category item.2) (total item.2)))
      as (H1 & H2 & H3).
    + by apply NoDup_dict_set.
    + by apply nonempty_dd_append.
    + repeat split; [done..|]. rewrite H3, rows_total_dd_append. lia.
Qed.

Lemma sorted_rows_Sorted (categories : list (string * list R)) :
  Sorted (λ x y : string * list R, length y.2 ≤ length x.2)
    (py_sorted (λ x y, bool_decide (length y.2 < length x.2)%nat) categories).
Proof.
  apply py_sorted_Sorted.
  - intros x y Hxy%bool_decide_eq_true. lia.
  - intros x y Hxy%bool_decide_eq_false. lia.
Qed.

Lemma Sorted_fmap_rows {A B : Type} (f : A → B) (ra : relation A)
    (rb : relation B) (l : list A) :
  (∀ x y, ra x y → rb (f x) (f y)) → Sorted ra l → Sorted rb (f <$> l).
Proof.
  intros Hf. induction 1 as [|x l Hs IH Hhd]; csimpl; constructor; [done|].
  destruct Hhd; csimpl; constructor. by apply Hf.
Qed.

Lemma length_py_slice_to {A : Type} (n : Z) (l : list A) :
  Z.of_nat (length (py_slice_to n l))
  = (if decide (n < 0)%Z
     then (Z.of_nat (length l) + n) `max` 0
     else n `min` Z.of_nat (length l))%Z.
Proof. unfold py_slice_to. rewrite length_take. case_decide; lia. Qed.

Section report.
Variables (gravity_scores : list (string * gravity_score)) (top_n : Z).

(** What [generate_report_values] returns for a result that is not
    empty. *)
Lemma generate_report_values_spec :
  gravity_scores ≠ [] →
  ∃ ranking top,
    length ranking = length (py_slice_to top_n gravity_scores)
    ∧ (∀ (i : nat) item,
         py_slice_to top_n gravity_scores !! i = Some item →
         ∃ description,
           get_bonus_description item.2 = Some description
           ∧ ranking !! i
             = Some ((i + 1)%nat, item.1, total item.2, description))
    ∧ head gravity_scores = Some top
    ∧ generate_report_values gravity_scores top_n
      = Some (Some (ReportValues
           (top_n `min` Z.of_nat (length gravity_scores))%Z ranking
           (length (filter (λ item, exists_ item.2 = true) gravity_scores))
           (sumR ((λ item, bidirectional_efficiency item.2)
                    <$> gravity_scores)
            / INR (length gravity_scores) * 100)
           (total top.2)
           ((λ row : string * list R,
               (row.1, length row.2, sumR row.2 / INR (length row.2)))
            <$> py_sorted (λ x y, bool_decide (length y.2 < length x.2)%nat)
                  (categories_of (py_slice_to top_n gravity_scores))))).
Proof.
  intros Hne. unfold generate_report_values. rewrite decide_False by done.
  set (shown := py_slice_to top_n gravity_scores).
  set (line := λ entry : nat * (string * gravity_score),
         ((entry.1 + 1)%nat, entry.2.1, total entry.2.2,
          default EmptyString (get_bonus_description entry.2.2))).
  assert (mapM (λ entry : nat * (string * gravity_score),
                  description ← get_bonus_description entry.2.2;
                  Some (entry.1 + 1, entry.2.1, total entry.2.2,
                        description)%nat)
               (imap (λ i item, (i, item)) shown)
          = Some (line <$> imap (λ i item, (i, item)) shown)) as Hranking.
  { apply mapM_total. intros entry _. unfold line.
    destruct (get_bonus_description_total entry.2.2) as [text ->]. done. }
  assert (∃ top, gravity_scores !! 0%nat = Some top
                 ∧ head gravity_scores = Some top) as (top & Htop & Hhd)
    by (destruct gravity_scores; [done | by eexists]).
  assert (INR (length gravity_scores) ≠ 0) as Hlen
    by (apply not_0_INR; by destruct gravity_scores).
  exists (line <$> imap (λ i item, (i, item)) shown), top. split.
  { by rewrite length_fmap, length_imap. }
  split.
  { intros i item Hi.
    destruct (get_bonus_description_total item.2) as [text Htext].
    exists text. split; [done|].
    rewrite list_lookup_fmap, list_lookup_imap, Hi. simpl. unfold line.
    simpl. by rewrite Htext. }
  split; [done|]. rewrite Hranking. simpl.
  rewrite (py_div_nonzero _ _ Hlen).
  simpl. rewrite Htop. simpl. rewrite (mapM_total _
    (λ row : string * list R,
       (row.1, length row.2, sumR row.2 / INR (length row.2)))); [done|].
  intros row Hrow. rewrite py_sorted_perm in Hrow.
  destruct (categories_invariant shown []
              ltac:(constructor) ltac:(constructor)) as (_ & Hnonempty & _).
  apply (proj1 (Forall_forall _ _) Hnonempty) in Hrow.
  rewrite py_div_nonzero; [done|]. apply not_0_INR.
  by destruct row.2.
Qed.
End report.

(** X15: [generate_report] raises nothing on any result and any integer
    [top_n]: the averages never divide by zero.  It lists the notes of the
    slice [[:top_n]]: for [top_n >= 0] the first [min(top_n, len)] notes,
    which is the number its heading shows, and for [top_n < 0] all but the
    last [-top_n] notes, while the heading shows [min(top_n, len)], which
    is then [top_n], a negative number.  The number of notes with a file
    is at most the number of records; the category table has one row per
    category of the notes listed, no two rows with the same name and none
    empty, the rows' counts add up to the number of notes listed, and a
    larger category comes first. *)
Theorem report_values_defined
    (gravity_scores : list (string * gravity_score)) (top_n : Z) :
  ∃ result,
    generate_report_values gravity_scores top_n = Some result
    ∧ (result = None ↔ gravity_scores = [])
    ∧ ∀ v, result = Some v →
        shown_count v = (top_n `min` Z.of_nat (length gravity_scores))%Z
        ∧ length (ranking v) = length (py_slice_to top_n gravity_scores)
        ∧ (∀ (i : nat) item,
             py_slice_to top_n gravity_scores !! i = Some item →
             ∃ description,
               get_bonus_description item.2 = Some description
               ∧ ranking v !! i
                 = Some ((i + 1)%nat, item.1, total item.2, description))
        ∧ ((0 ≤ top_n)%Z →
           py_slice_to top_n gravity_scores
           = take (Z.to_nat top_n) gravity_scores
           ∧ Z.of_nat (length (ranking v)) = shown_count v)
        ∧ ((top_n < 0)%Z →
           py_slice_to top_n gravity_scores
           = take (length gravity_scores - Z.to_nat (- top_n)) gravity_scores
           ∧ shown_count v = top_n
           ∧ Z.of_nat (length (ranking v)) ≠ shown_count v)
        ∧ (total_notes v ≤ length gravity_scores)%nat
        ∧ NoDup ((λ row, row.1.1) <$> category_rows v)
        ∧ sum_list ((λ row, row.1.2) <$> category_rows v)
          = length (ranking v)
        ∧ Forall (λ row, 1 ≤ row.1.2)%nat (category_rows v)
        ∧ Sorted (λ x y, y.1.2 ≤ x.1.2)%nat (category_rows v).
Proof.
  destruct (decide (gravity_scores = [])) as [->|Hne].
  - exists None. split; [done|]. split; [done|]. intros v [=].
  - destruct (generate_report_values_spec gravity_scores top_n Hne)
      as (ranking & top & Hlen & Hlines & _ & Hv).
    eexists. split; [exact Hv|]. split; [split; [done | by intros ?]|].
    intros v [= <-]. simpl.
    set (shown := py_slice_to top_n gravity_scores) in *.
    pose proof (length_py_slice_to top_n gravity_scores) as Hslice.
    fold shown in Hslice.
    destruct (categories_invariant shown []
                ltac:(constructor) ltac:(constructor))
      as (Hnd & Hnonempty & Htotal).
    fold (categories_of shown) in Hnd, Hnonempty, Htotal.
    set (sorted := py_sorted _ (categories_of shown)).
    assert (sorted ≡ₚ categories_of shown) as Hp by apply py_sorted_perm.
    split; [done|]. split; [done|]. split; [done|].
    split.
    { intros Hpos. split.
      - unfold shown, py_slice_to. by rewrite decide_False by lia.
      - rewrite Hlen, Hslice. by rewrite decide_False by lia. }
    split.
    { intros Hneg. split; [|split].
      - unfold shown, py_slice_to. rewrite decide_True by done.
        f_equal. lia.
      - lia.
      - rewrite Hlen, Hslice. rewrite decide_True by done. lia. }
    split; [apply length_filter_le|].
    rewrite <- !list_fmap_compose.
    split; [|split; [|split]].
    + change (NoDup sorted.*1). by rewrite Hp.
    + change (rows_total sorted = length ranking).
      unfold rows_total. rewrite Hp. fold (rows_total (categories_of shown)).
      rewrite Htotal, Hlen. done.
    + apply Forall_fmap. rewrite Hp.
      eapply Forall_impl; [exact Hnonempty|].
      intros [k l] Hl. simpl in *. destruct l; [done | simpl; lia].
    + apply (Sorted_fmap_rows _ (λ x y, length y.2 ≤ length x.2)%nat);
        [done | apply sorted_rows_Sorted].
Qed.

Lemma average_bounds {A : Type} (f : A → R) (l : list A) :
  l ≠ [] → (∀ x, x ∈ l → 0 <= f x <= 1) →
  0 <= sumR (f <$> l) / INR (length l) * 100 <= 100.
Proof.
  intros Hne Hf.
  assert (0 < INR (length l)) as Hlen
    by (apply lt_0_INR; destruct l; [done | simpl; lia]).
  assert (0 <= sumR (f <$> l)) as Hlow
    by (apply sumR_fmap_nonneg; intros x Hx; by apply Hf).
  assert (sumR (f <$> l) <= INR (length l)) as Hup.
  { rewrite <- (Rmult_1_r (INR (length l))), <- (sumR_fmap_const 1 l).
    apply sumR_fmap_le. intros x Hx. by apply Hf. }
  assert (/ INR (length l) * INR (length l) = 1) by (apply Rinv_l; lra).
  assert (0 < / INR (length l)) by (by apply Rinv_0_lt_compat).
  unfold Rdiv. split; nra.
Qed.

(** X16: on the result of the index the report's statistics are sound:
    the average efficiency is a percentage between 0 and 100, and the top
    score is the largest total of all records. *)
Theorem report_of_index (iter : set_order) (self : GravityIndexAnalyzer)
    (top_n : Z) :
  ∃ out result,
    calculate_gravity_index iter self = Some out
    ∧ generate_report_values out top_n = Some result
    ∧ ∀ v, result = Some v →
        0 <= avg_efficiency v <= 100
        ∧ ∀ note r, (note, r) ∈ out → total r <= top_score v.
Proof.
  exists (sort_by_total (spec_scores iter self)).
  destruct (decide (sort_by_total (spec_scores iter self) = []))
    as [Hnil|Hne].
  - exists None. split; [apply calculate_gravity_index_spec|].
    rewrite Hnil. split; [done|]. intros v [=].
  - destruct (generate_report_values_spec _ top_n Hne)
      as (ranking & top & _ & _ & Hhd & Hv).
    eexists. split; [apply calculate_gravity_index_spec|].
    split; [exact Hv|]. intros v [= <-]. simpl. split.
    + apply average_bounds; [done|]. intros [note r] Hin.
      apply elem_of_gravity_output in Hin as (_ & _ & ->). simpl.
      destruct (bidirectional_le self note) as [Hbi _].
      by apply spec_efficiency_bounds.
    + intros note r Hin.
      apply (sorted_head_max _ top (sort_by_total_Sorted _) Hhd (note, r) Hin).
Qed.

(** ** The quality bonus in whole numbers *)

Lemma quality_bonus_counts (incoming bidirectional : nat) :
  (bidirectional ≤ incoming)%nat →
  (spec_quality_bonus (spec_efficiency incoming bidirectional) = 2.0
   ↔ (incoming < 4 * bidirectional)%nat)
  ∧ (spec_quality_bonus (spec_efficiency incoming bidirectional) = 0.5
     ↔ (4 * bidirectional ≤ incoming)%nat)
  ∧ (0.25 <= spec_efficiency incoming bidirectional
     ↔ (0 < incoming ∧ incoming ≤ 4 * bidirectional)%nat).
Proof.
  intros Hle. unfold spec_quality_bonus, spec_efficiency.
  destruct (decide (0 < incoming)%nat) as [Hpos|Hz].
  - replace (incoming `max` 1)%nat with incoming by lia.
    assert (0 < INR incoming) as Hi by (apply lt_0_INR; lia).
    assert (/ INR incoming * INR incoming = 1) by (apply Rinv_l; lra).
    assert (0 < / INR incoming) by (by apply Rinv_0_lt_compat).
    assert (INR (4 * bidirectional) = 4 * INR bidirectional) as H4.
    { rewrite mult_INR. f_equal. rewrite INR_IZR_INZ. reflexivity. }
    unfold Rdiv.
    assert (0.25 <= INR bidirectional * / INR incoming
            ↔ (0 < incoming ∧ incoming ≤ 4 * bidirectional)%nat) as Hge.
    { split.
      - intros Hq. split; [done|]. apply INR_le. rewrite H4. nra.
      - intros [_ Hc]. apply le_INR in Hc. rewrite H4 in Hc. nra. }
    destruct (le_lt_dec (4 * bidirectional) incoming) as [Hc|Hc].
    + pose proof (le_INR _ _ Hc) as Hr. rewrite H4 in Hr.
      rewrite decide_False by nra.
      split; [split; [lra | lia]|]. split; [split; [lia | done]|]. done.
    + pose proof (lt_INR _ _ Hc) as Hr. rewrite H4 in Hr.
      rewrite decide_True by nra.
      split; [split; [lia | done]|]. split; [split; [lra | lia]|]. done.
  - assert (incoming = 0%nat) as -> by lia.
    assert (bidirectional = 0%nat) as -> by lia.
    rewrite decide_False by lra.
    split; [split; [lra | lia]|]. split; [split; [lia | done]|].
    split; [lra | lia].
Qed.

(** X17: the quality bonus of a record is decided by whole numbers: it is
    2.0 exactly when the incoming count is less than four times the
    bidirectional count, and 0.5 otherwise.  The description uses another
    boundary: a record with exactly four times as many incoming as
    bidirectional links has the bonus 0.5 and yet the strength
    "quality focus". *)
Theorem quality_bonus_threshold (iter : set_order)
    (self : GravityIndexAnalyzer) :
  ∃ out,
    calculate_gravity_index iter self = Some out
    ∧ ∀ note r, (note, r) ∈ out →
        (quality_bonus r = 2.0 ↔ (incoming r < 4 * bidirectional r)%nat)
        ∧ (quality_bonus r = 0.5 ↔ (4 * bidirectional r ≤ incoming r)%nat)
        ∧ ((0 < incoming r ∧ incoming r = 4 * bidirectional r)%nat →
           quality_bonus r = 0.5
           ∧ "quality focus" ∈ strengths_of r).
Proof.
  eexists. split; [apply calculate_gravity_index_spec|].
  intros note r (_ & _ & ->)%elem_of_gravity_output. simpl.
  destruct (bidirectional_le self note) as [Hbi _].
  destruct (quality_bonus_counts _ _ Hbi) as (H2 & H05 & Hq).
  split; [done|]. split; [done|]. intros [Hpos Heq]. split.
  - apply H05. lia.
  - assert (0.25 <= spec_efficiency (incoming_of self note)
                      (bidirectional_of self note)) as Hge
      by (apply Hq; lia).
    assert (spec_efficiency (incoming_of self note)
              (bidirectional_of self note) < 0.4) as Hlt.
    { unfold spec_efficiency. rewrite decide_True by lia.
      replace (incoming_of self note `max` 1)%nat
        with (incoming_of self note) by lia.
      assert (INR (incoming_of self note)
              = 4 * INR (bidirectional_of self note)) as HR.
      { apply (f_equal INR) in Heq. rewrite !plus_INR in Heq.
        simpl (INR 0) in Heq. lra. }
      assert (0 < INR (incoming_of self note)) by (apply lt_0_INR; lia).
      assert (/ INR (incoming_of self note) * INR (incoming_of self note) = 1)
        by (apply Rinv_l; lra).
      unfold Rdiv. nra. }
    unfold strengths_of. simpl. rewrite !elem_of_app. do 3 right.
    rewrite decide_False by lra. rewrite decide_True by lra. left.
Qed.

(** ** The whole run *)

Lemma not_all_skipped (vault : list md_file) :
  ¬ (∀ f, f ∈ vault → skipped f = true) → ∃ f, f ∈ vault ∧ skipped f = false.
Proof.
  induction vault as [|f vault IH]; intros Hnot.
  - destruct Hnot. by intros f ?%not_elem_of_nil.
  - destruct (skipped f) eqn:Hskip.
    + destruct IH as (f' & Hf' & Hs').
      { intros Hall. apply Hnot. intros f' [->|Hf']%elem_of_cons; auto. }
      exists f'. split; [by right | done].
    + exists f. split; [left | done].
Qed.

(** No record at all means that no link was recorded. *)
Lemma no_link_no_record (iter : set_order) (vault : list md_file) :
  sort_by_total (spec_scores iter (scan_vault vault)) = []
  ↔ ∀ a, dd_get (links (scan_vault vault)) a = ∅.
Proof.
  pose proof (scan_vault_wf vault) as Hwf. split.
  - intros Hnil a. apply leibniz_equiv, elem_of_equiv_empty. intros b Hb.
    assert (a ∈ (sort_by_total (spec_scores iter (scan_vault vault))).*1)
      as Hin.
    { apply elem_of_gravity_keys. split.
      - eapply wf_notes, wf_source; eauto.
      - right. unfold outgoing_of.
        destruct (decide (size (dd_get (links (scan_vault vault)) a) = 0%nat))
          as [Hz|Hz]; [|lia].
        apply size_empty_iff in Hz. set_solver. }
    rewrite Hnil in Hin. by apply not_elem_of_nil in Hin.
  - intros Hall. rewrite no_qualifying_note_empty; [done|].
    intros note _ [Hin|Hout].
    + apply size_pos_elem_of in Hin as [a Ha].
      apply (wf_symmetric _ Hwf) in Ha. rewrite Hall in Ha.
      by apply not_elem_of_empty in Ha.
    + unfold outgoing_of in Hout. rewrite Hall, size_empty in Hout. lia.
Qed.

(** X18: a run of [main] never reaches its error branch through the
    computation.  It reports that no markdown file was found exactly when
    every file is under a skipped folder, that no connection was found
    exactly when files were scanned but no link was recorded, and
    otherwise completes with a report and, as top note, a record of the
    largest total. *)
Theorem main_outcomes (iter : set_order) (vault : list md_file) :
  main iter vault ≠ Failed
  ∧ (main iter vault = NoMarkdownFiles ↔ ∀ f, f ∈ vault → skipped f = true)
  ∧ (main iter vault = NoConnections
     ↔ (∃ f, f ∈ vault ∧ skipped f = false)
       ∧ ∀ a, dd_get (links (scan_vault vault)) a = ∅)
  ∧ ∀ report top_note top_score top_five,
      main iter vault = Completed report top_note top_score top_five →
      ∃ out v r,
        calculate_gravity_index iter (scan_vault vault) = Some out
        ∧ report = Some v ∧ (top_note, r) ∈ out ∧ top_score = total r
        ∧ ∀ note r', (note, r') ∈ out → total r' <= top_score.
Proof.
  pose proof (scan_vault_wf vault) as Hwf.
  pose proof (scan_vault_empty_iff vault) as Hempty.
  pose proof (no_link_no_record iter vault) as Hnolink.
  unfold main. rewrite calculate_gravity_index_spec.
  set (g := scan_vault vault) in *.
  set (out := sort_by_total (spec_scores iter g)) in *.
  assert ((∃ f, f ∈ vault ∧ skipped f = false) ↔ all_notes g ≠ ∅) as Hfiles.
  { rewrite Hempty. split.
    - intros (f & Hf & Hskip) Hall. rewrite (Hall f Hf) in Hskip. done.
    - intros Hnot. apply not_all_skipped. done. }
  destruct (decide (all_notes g = ∅)) as [He|Hne].
  { split; [done|]. split; [by rewrite <- Hempty|].
    split; [|done]. split; [done|]. intros [Hf%Hfiles _]. done. }
  destruct (decide (out = [])) as [Hnil|Hsome].
  { split; [done|]. split.
    - split; [done|]. intros Hall%Hempty. done.
    - split; [|done]. split; [|done]. intros _.
      split; [by apply Hfiles | by apply Hnolink]. }
  destruct (generate_report_values_spec out 50%Z Hsome)
    as (ranking & top & _ & _ & Hhd & ->).
  assert (out !! 0%nat = Some top) as -> by (by destruct out).
  split; [done|]. split.
  { split; [done|]. intros Hall%Hempty. done. }
  split.
  { split; [done|]. intros [_ Hall%Hnolink]. done. }
  intros report top_note top_score top_five [= <- <- <- <-].
  eexists out, _, top.2. split; [done|]. split; [done|].
  assert (top ∈ out) as Hin by (destruct out; [done|]; injection Hhd as ->; left).
  split; [by destruct top|]. split; [done|].
  intros note r' Hr.
  apply (sorted_head_max _ top (sort_by_total_Sorted _) Hhd (note, r') Hr).
Qed.
